(** * HTTPRoute validation (apis/v1beta1/validation/httproute.go)

    A shallow embedding of the Go validation routines
    [ValidateHTTPRoute], [ValidateHTTPRouteSpec], [validateHTTPRouteFilters],
    [validateHTTPHeaderMatches] and [validateHTTPHeaderModifier], together
    with the properties the specification states about them.

    Modelling decisions.
    - Go strings are byte strings: [string].
    - A Go slice is a [list]; a nil slice and an empty slice are both [[]]
      (the code only ranges over slices and takes their [len]).
    - A Go pointer to a payload that may be nil is an [option]; the route
      and the spec the validation is called on are values (the pointers
      passed are not nil).
    - A Go [map] is a [gmap]; reading a missing key yields the zero value.
      Ranging over a map visits its entries in an order the language leaves
      unspecified (and the runtime randomises), so a function is modelled
      by the set of its possible runs.
    - A Go [int] counter that counts elements of a slice is a [Z]: a slice has
      at most [2^63 - 1] elements, so the counter never wraps.
    - Run-time panics (index out of range) are an explicit outcome of a run,
      and so are the calls a run makes to functions outside the file.
    - [strings.ToLower], [http.CanonicalHeaderKey] and [ValidateParentRefs]
      are parameters of the validation; the modules [strings] and [http]
      give the former two on ASCII names, for the examples.

    The file also embeds the gateway class printer of gwctl
    (gwctl/pkg/printer/gatewayclasses.go): [PrintTable] and
    [PrintDescribeView].
    - What the printer writes to its writer and to the standard error
      stream, and the clock it reads, are the state of a run; a run ends by
      returning or by leaving the program ([os.Exit]).
    - [maps.Values] and [range] over the map of gateway classes give the
      entries in any order.
    - The functions of other packages and files ([SortByString],
      [Clock.Since], [duration.HumanDuration], the [Write] method of a table, [yaml.Marshal], [strings.TrimSpace],
      [ConvertPoliciesMapToPolicyRefs], [ToAPIVersionAndKind]) are parameters
      of the printer; the module [printer_examples] has stand-ins for
      them, for the examples. *)

From Stdlib Require Import ZArith Ascii String List Lia.
From stdpp Require Import base tactics option list list_monad sorting gmap strings pretty.

Open Scope string_scope.
Open Scope Z_scope.
Open Scope list_scope.

(* ===================================================================== *)
(** * Library code the validation calls *)
(* ===================================================================== *)

(** ** Go's [strings] package, on ASCII byte strings *)
Module strings.

Definition is_upper (c : ascii) : bool :=
  let n := N_of_ascii c in ((65 <=? n) && (n <=? 90))%N.

Definition is_lower (c : ascii) : bool :=
  let n := N_of_ascii c in ((97 <=? n) && (n <=? 122))%N.

Definition lower_byte (c : ascii) : ascii :=
  if is_upper c then ascii_of_N (N_of_ascii c + 32) else c.

Definition upper_byte (c : ascii) : ascii :=
  if is_lower c then ascii_of_N (N_of_ascii c - 32) else c.

(** [strings.ToLower] restricted to strings whose bytes are all ASCII
    (on such strings Go maps 'A'..'Z' to 'a'..'z' byte by byte). *)
Fixpoint ToLower (s : string) : string :=
  match s with
  | EmptyString => EmptyString
  | String c s' => String (lower_byte c) (ToLower s')
  end.

End strings.

(** ** Go's [net/http] package *)
Module http.

(** net/textproto's [validHeaderFieldByte]: the token characters of
    RFC 7230. *)
Definition validHeaderFieldByte (c : ascii) : bool :=
  let n := N_of_ascii c in
  (strings.is_upper c || strings.is_lower c || ((48 <=? n) && (n <=? 57))
   || existsb (N.eqb n) [33; 35; 36; 37; 38; 39; 42; 43; 45; 46; 94; 95; 96; 124; 126])%N.

Fixpoint all_valid (s : string) : bool :=
  match s with
  | EmptyString => true
  | String c s' => validHeaderFieldByte c && all_valid s'
  end.

(** The canonicalising loop: upper case for the first letter and for any
    letter that follows a hyphen, lower case for the rest. *)
Fixpoint canonicalise (upper : bool) (s : string) : string :=
  match s with
  | EmptyString => EmptyString
  | String c s' =>
      let c' := if upper then strings.upper_byte c else strings.lower_byte c in
      String c' (canonicalise (Ascii.eqb c' "-"%char) s')
  end.

(** [http.CanonicalHeaderKey]: a key that contains a byte that is not a
    token character is returned unchanged. *)
Definition CanonicalHeaderKey (s : string) : string :=
  if all_valid s then canonicalise true s else s.

End http.

(** ** k8s.io/apimachinery/pkg/util/validation/field *)
Module field.

(** A path is a root-first list of elements: a named child or a
    subscript. *)
Inductive PathElem : Type :=
| Name (name : string)
| Idx (index : nat).

Abbreviation Path := (list PathElem).

Definition NewPath (name : string) : Path := [Name name].
Definition Child (p : Path) (name : string) : Path := p ++ [Name name].
Definition Index (p : Path) (index : nat) : Path := p ++ [Idx index].

Global Instance PathElem_eq_dec : EqDecision PathElem.
Proof. solve_decision. Defined.

Definition render_elem (first : bool) (e : PathElem) : string :=
  match e with
  | Name n => (if first then "" else ".") +:+ n
  | Idx i => "[" +:+ pretty i +:+ "]"
  end.

Fixpoint render_from (first : bool) (p : Path) : string :=
  match p with
  | [] => ""
  | e :: p' => render_elem first e +:+ render_from false p'
  end.

(** The [String] method of a path, e.g. [spec.rules[0].matches[0].headers]. *)
Definition Path_String (p : Path) : string :=
  match p with
  | [] => "<nil>"
  | _ => render_from true p
  end.

Inductive ErrorType : Type :=
| ErrorTypeInvalid.

Section WithValue.
(** The offending value is an [interface{}] in Go; the type of values
    the validation stores there is fixed by the client. *)
Context {Value : Type}.

Record Error : Type := mkError {
  Type' : ErrorType;
  Field : Path;
  BadValue : Value;
  Detail : string;
}.

Definition Invalid (field : Path) (value : Value) (detail : string) : Error :=
  mkError ErrorTypeInvalid field value detail.
End WithValue.

Global Arguments Error : clear implicits.

(** [ErrorList] is a slice of errors. *)
Abbreviation ErrorList Value := (list (Error Value)).

End field.

(* ===================================================================== *)
(** * The API types (apis/v1beta1) the validation reads *)
(* ===================================================================== *)

Module gatewayv1b1.

(** [HTTPRouteFilterType] is a Go string type; these are its declared
    constants. *)
Abbreviation HTTPRouteFilterType := string (only parsing).
Definition HTTPRouteFilterRequestHeaderModifier : HTTPRouteFilterType := "RequestHeaderModifier".
Definition HTTPRouteFilterResponseHeaderModifier : HTTPRouteFilterType := "ResponseHeaderModifier".
Definition HTTPRouteFilterRequestRedirect : HTTPRouteFilterType := "RequestRedirect".
Definition HTTPRouteFilterURLRewrite : HTTPRouteFilterType := "URLRewrite".
Definition HTTPRouteFilterRequestMirror : HTTPRouteFilterType := "RequestMirror".
Definition HTTPRouteFilterExtensionRef : HTTPRouteFilterType := "ExtensionRef".

Module HTTPHeader.
Record t : Type := mk { Name : string; Value : string }.
End HTTPHeader.

Module HTTPHeaderFilter.
Record t : Type := mk {
  Set' : list HTTPHeader.t;
  Add : list HTTPHeader.t;
  Remove : list string;
}.
End HTTPHeaderFilter.

Module HTTPPathModifier.
Record t : Type := mk {
  Type' : string;
  ReplaceFullPath : option string;
  ReplacePrefixMatch : option string;
}.
End HTTPPathModifier.

Module BackendObjectReference.
Record t : Type := mk { Name : string; Port : option Z }.
End BackendObjectReference.

Module HTTPRequestMirrorFilter.
Record t : Type := mk { BackendRef : BackendObjectReference.t }.
End HTTPRequestMirrorFilter.

Module HTTPRequestRedirectFilter.
Record t : Type := mk { Path : option HTTPPathModifier.t }.
End HTTPRequestRedirectFilter.

Module HTTPURLRewriteFilter.
Record t : Type := mk { Path : option HTTPPathModifier.t }.
End HTTPURLRewriteFilter.

(** A filter: its [Type] and, for each kind of filter, a payload that may
    be absent. *)
Module HTTPRouteFilter.
Record t : Type := mk {
  Type' : HTTPRouteFilterType;
  RequestHeaderModifier : option HTTPHeaderFilter.t;
  ResponseHeaderModifier : option HTTPHeaderFilter.t;
  RequestMirror : option HTTPRequestMirrorFilter.t;
  RequestRedirect : option HTTPRequestRedirectFilter.t;
  URLRewrite : option HTTPURLRewriteFilter.t;
}.
End HTTPRouteFilter.

Module HTTPHeaderMatch.
Record t : Type := mk { Name : string; Value : string }.
End HTTPHeaderMatch.

Module HTTPQueryParamMatch.
Record t : Type := mk { Name : string; Value : string }.
End HTTPQueryParamMatch.

Module HTTPRouteMatch.
Record t : Type := mk {
  Headers : list HTTPHeaderMatch.t;
  QueryParams : list HTTPQueryParamMatch.t;
}.
End HTTPRouteMatch.

Module HTTPBackendRef.
Record t : Type := mk {
  BackendRef : BackendObjectReference.t;
  Weight : option Z;
  Filters : list HTTPRouteFilter.t;
}.
End HTTPBackendRef.

Module HTTPRouteRule.
Record t : Type := mk {
  Matches : list HTTPRouteMatch.t;
  Filters : list HTTPRouteFilter.t;
  BackendRefs : list HTTPBackendRef.t;
}.
End HTTPRouteRule.

Module ParentReference.
Record t : Type := mk {
  Group : option string;
  Kind : option string;
  Namespace : option string;
  Name : string;
  SectionName : option string;
  Port : option Z;
}.
End ParentReference.

Module HTTPRouteSpec.
Record t : Type := mk {
  ParentRefs : list ParentReference.t;
  Rules : list HTTPRouteRule.t;
}.
End HTTPRouteSpec.

Module HTTPRoute.
Record t : Type := mk { Spec : HTTPRouteSpec.t }.
End HTTPRoute.

End gatewayv1b1.

(* ===================================================================== *)
(** * Runs of Go code *)
(* ===================================================================== *)

Module Go.

(** Calls that leave the package. *)
Inductive Call : Type :=
| CallValidateParentRefs (parentRefs : list gatewayv1b1.ParentReference.t) (path : field.Path).

(** What one run of a function does: it returns a value, having made the
    listed external calls in that order, or it panics. *)
Inductive outcome (A : Type) : Type :=
| Returns (a : A) (calls : list Call)
| Panics.
Global Arguments Returns {A} a calls.
Global Arguments Panics {A}.

(** The possible runs of a function: one outcome per way the runtime may
    resolve the choices the language leaves open. *)
Definition M (A : Type) : Type := list (outcome A).

Definition ret {A} (a : A) : M A := [Returns a []].
Definition panic {A} : M A := [Panics].

Definition after {B} (calls : list Call) (o : outcome B) : outcome B :=
  match o with
  | Returns b calls' => Returns b (calls ++ calls')
  | Panics => Panics
  end.

Definition bind {A B} (m : M A) (k : A → M B) : M B :=
  o ← m;
  match o with
  | Returns a calls => after calls <$> k a
  | Panics => [Panics]
  end.

(** One run per element of [l]. *)
Definition choose {A} (l : list A) : M A := (λ a, Returns a []) <$> l.

(** An external call whose result is [r]. *)
Definition external {A} (c : Call) (r : A) : M A := [Returns r [c]].

(** [s[i]] on a slice: out of range is a run-time panic. *)
Definition index {A} (s : list A) (i : nat) : M A :=
  match s !! i with
  | Some x => ret x
  | None => panic
  end.

Definition len {A} (s : list A) : Z := Z.of_nat (length s).

(** [m[k]] on a map of integers: a missing key reads as 0. *)
Definition get `{Countable K} (m : gmap K Z) (k : K) : Z := default 0 (m !! k).

(** [m[k]++] *)
Definition incr `{Countable K} (m : gmap K Z) (k : K) : gmap K Z := <[k := get m k + 1]> m.

(** [for k, v := range m] visits the entries of [m] once each, in an
    order that is not specified: any permutation of the entries. *)
Definition range_map `{Countable K} {V} (m : gmap K V) : M (list (K * V)) :=
  choose (permutations (map_to_list m)).

(** [for i, x := range s { body }] over a slice, threading the variables
    the body assigns. *)
Fixpoint for_range_from {A St} (i : nat) (s : list A) (body : nat → A → St → M St) (st : St) : M St :=
  match s with
  | [] => ret st
  | x :: s' => bind (body i x st) (for_range_from (S i) s' body)
  end.

Global Arguments bind : simpl never.
Global Arguments ret : simpl never.

Definition for_range {A St} (s : list A) (body : nat → A → St → M St) (st : St) : M St :=
  for_range_from 0 s body st.

End Go.

Notation "x <- m ;; k" := (Go.bind m (λ x, k))
  (at level 20, m at level 99, k at level 200, only parsing).
Notation "' pat <- m ;; k" := (Go.bind m (λ x, match x with pat => k end))
  (at level 20, pat pattern, m at level 99, k at level 200, only parsing).

(* ===================================================================== *)
(** * apis/v1beta1/validation/httproute.go *)
(* ===================================================================== *)

Module validation.
Import field gatewayv1b1 Go.

(** The values the validation reports as invalid. *)
Inductive Value : Type :=
| VString (s : string)
| VFilterType (t : HTTPRouteFilterType)
| VHeader (h : HTTPHeader.t).

Abbreviation Error := (field.Error Value).
Abbreviation ErrorList := (field.ErrorList Value).

Definition msgFilterConflict : string :=
  "may specify either httpRouteFilterRequestRedirect or httpRouteFilterRequestRewrite, but not both".
Definition msgHeaderMatch : string :=
  "cannot match the same header multiple times in the same rule".
Definition msgHeaderAction : string :=
  "cannot specify multiple actions for header".

(** The [Error] method of an error whose value is a Go string, as the
    tests compare it: the path, the kind of error, the quoted value and the
    detail. Names that need no escaping are printed as they are. *)
Definition ErrorString (e : Error) : option string :=
  match BadValue e with
  | VString v =>
      let quote := String (ascii_of_nat 34) EmptyString in
      Some (Path_String (Field e) +:+ ": Invalid value: " +:+ quote +:+ v +:+ quote
            +:+ ": " +:+ Detail e)
  | _ => None
  end.

Section Validation.
(** [strings.ToLower] and [http.CanonicalHeaderKey] are library
    functions and [ValidateParentRefs] lives in another file of the
    package: the validation is stated for any such functions. *)
Variable ToLower : string → string.
Variable CanonicalHeaderKey : string → string.
Variable ValidateParentRefs : list ParentReference.t → Path → ErrorList.

(** The body shared by the three loops of [validateHTTPHeaderModifier]:
    [name] is the header the action names, [entry] reads the slice
    element the error reports ([filter.Add[i]], [filter.Set[i]] or
    [filter.Remove[i]]) and [sub] is the path of the list. *)
Definition singleActionStep (sub : Path) (name : string) (entry : M Value)
    (st : ErrorList * gmap string bool) : M (ErrorList * gmap string bool) :=
  let '(errs, singleAction) := st in
  match (singleAction !! ToLower name : option bool) with
  | Some needsErr =>
      errs <- (if needsErr
               then v <- entry ;; ret (errs ++ [Invalid sub v msgHeaderAction])
               else ret errs) ;;
      ret (errs, <[ToLower name := false]> singleAction)
  | None =>
      ret (errs, <[ToLower name := true]> singleAction)
  end.

Definition validateHTTPHeaderModifier (filter : HTTPHeaderFilter.t) (path : Path) : M ErrorList :=
  let errs : ErrorList := [] in
  let singleAction : gmap string bool := ∅ in
  st <- for_range (HTTPHeaderFilter.Add filter) (λ i action,
          singleActionStep (Child path "add") (HTTPHeader.Name action)
            (h <- index (HTTPHeaderFilter.Add filter) i ;; ret (VHeader h)))
          (errs, singleAction) ;;
  st <- for_range (HTTPHeaderFilter.Set' filter) (λ i action,
          singleActionStep (Child path "set") (HTTPHeader.Name action)
            (h <- index (HTTPHeaderFilter.Set' filter) i ;; ret (VHeader h)))
          st ;;
  st <- for_range (HTTPHeaderFilter.Remove filter) (λ i name,
          singleActionStep (Child path "remove") name
            (n <- index (HTTPHeaderFilter.Remove filter) i ;; ret (VString n)))
          st ;;
  ret (fst st).

Definition validateHTTPHeaderMatches (matches : list HTTPHeaderMatch.t) (path : Path) : M ErrorList :=
  let errs : ErrorList := [] in
  let counts : gmap string Z := ∅ in
  counts <- for_range matches (λ _ match_ counts,
              (* Header names are case-insensitive. *)
              ret (incr counts (ToLower (HTTPHeaderMatch.Name match_))))
              counts ;;
  entries <- range_map counts ;;
  for_range entries (λ _ '(name, count) errs,
    if 1 <? count
    then ret (errs ++ [Invalid path (VString (CanonicalHeaderKey name)) msgHeaderMatch])
    else ret errs)
    errs.

Definition validateHTTPRouteFilters (filters : list HTTPRouteFilter.t)
    (matches : list HTTPRouteMatch.t) (path : Path) : M ErrorList :=
  let errs : ErrorList := [] in
  let counts : gmap HTTPRouteFilterType Z := ∅ in
  '(errs, counts) <- for_range filters (λ i filter '(errs, counts),
      let counts := incr counts (HTTPRouteFilter.Type' filter) in
      errs <- match HTTPRouteFilter.RequestHeaderModifier filter with
              | Some m =>
                  e <- validateHTTPHeaderModifier m (Child (Index path i) "requestHeaderModifier") ;;
                  ret (errs ++ e)
              | None => ret errs
              end ;;
      errs <- match HTTPRouteFilter.ResponseHeaderModifier filter with
              | Some m =>
                  e <- validateHTTPHeaderModifier m (Child (Index path i) "responseHeaderModifier") ;;
                  ret (errs ++ e)
              | None => ret errs
              end ;;
      ret (errs, counts))
      (errs, counts) ;;
  if (0 <? get counts HTTPRouteFilterRequestRedirect) && (0 <? get counts HTTPRouteFilterURLRewrite)
  then ret (errs ++ [Invalid (Child path "filters") (VFilterType HTTPRouteFilterRequestRedirect)
                       msgFilterConflict])
  else ret errs.

(** The body of the loop over [spec.Rules] in [ValidateHTTPRouteSpec]:
    what the validation does for rule number [i], appending to [errs]. *)
Definition ruleBody (path : Path) (i : nat) (rule : HTTPRouteRule.t) (errs : ErrorList) : M ErrorList :=
  e <- validateHTTPRouteFilters (HTTPRouteRule.Filters rule) (HTTPRouteRule.Matches rule)
         (Index (Child path "rules") i) ;;
  let errs := errs ++ e in
  errs <- for_range (HTTPRouteRule.BackendRefs rule) (λ j backendRef errs,
      e <- validateHTTPRouteFilters (HTTPBackendRef.Filters backendRef) (HTTPRouteRule.Matches rule)
             (Index (Child (Index (Child path "rules") i) "backendRefs") j) ;;
      ret (errs ++ e))
      errs ;;
  for_range (HTTPRouteRule.Matches rule) (λ j m errs,
      let matchPath := Index (Child (Index (Child path "rules") i) "matches") j in
      if 0 <? len (HTTPRouteMatch.Headers m)
      then e <- validateHTTPHeaderMatches (HTTPRouteMatch.Headers m) (Child matchPath "headers") ;;
           ret (errs ++ e)
      else ret errs)
      errs.

Definition ValidateHTTPRouteSpec (spec : HTTPRouteSpec.t) (path : Path) : M ErrorList :=
  let errs : ErrorList := [] in
  errs <- for_range (HTTPRouteSpec.Rules spec) (ruleBody path) errs ;;
  e <- external (CallValidateParentRefs (HTTPRouteSpec.ParentRefs spec) (Child path "spec"))
         (ValidateParentRefs (HTTPRouteSpec.ParentRefs spec) (Child path "spec")) ;;
  ret (errs ++ e).

Definition ValidateHTTPRoute (route : HTTPRoute.t) : M ErrorList :=
  ValidateHTTPRouteSpec (HTTPRoute.Spec route) (NewPath "spec").

(** ** Descriptions of the results, used to state the properties *)

(** Number of occurrences of [k] in [l]. *)
Definition occ (k : string) (l : list string) : nat := length (filter (k =.) l).

(** One entry of the [Add], [Set] or [Remove] list of a header modifier:
    the path of its list, the header it names and the value an error about
    it would report. *)
Record action : Type := mkAction { act_sub : Path; act_name : string; act_value : Value }.

Definition key (a : action) : string := ToLower (act_name a).

(** The entries of a header modifier in the order the code visits them. *)
Definition actions (filter : HTTPHeaderFilter.t) (path : Path) : list action :=
  ((λ h, mkAction (Child path "add") (HTTPHeader.Name h) (VHeader h)) <$> HTTPHeaderFilter.Add filter)
  ++ ((λ h, mkAction (Child path "set") (HTTPHeader.Name h) (VHeader h)) <$> HTTPHeaderFilter.Set' filter)
  ++ ((λ n, mkAction (Child path "remove") n (VString n)) <$> HTTPHeaderFilter.Remove filter).

(** The errors for the entries of [acts] that are the second entry for
    their header, [earlier] being the headers of the entries before. *)
Fixpoint conflicts (earlier : list string) (acts : list action) : ErrorList :=
  match acts with
  | [] => []
  | a :: rest =>
      (if decide (occ (key a) earlier = 1%nat)
       then [Invalid (act_sub a) (act_value a) msgHeaderAction] else [])
      ++ conflicts (earlier ++ [key a]) rest
  end.

(** The header an error of the header-modifier check is about. *)
Definition value_name (v : Value) : string :=
  match v with
  | VString s => s
  | VFilterType t => t
  | VHeader h => HTTPHeader.Name h
  end.

Definition error_key (e : Error) : string := ToLower (value_name (BadValue e)).

(** What one step of the loops of [validateHTTPHeaderModifier] does to the
    errors and the map. *)
Definition stepAction (st : ErrorList * gmap string bool) (a : action) : ErrorList * gmap string bool :=
  match (st.2 !! key a : option bool) with
  | Some needsErr =>
      (if needsErr then st.1 ++ [Invalid (act_sub a) (act_value a) msgHeaderAction] else st.1,
       <[key a := false]> st.2)
  | None => (st.1, <[key a := true]> st.2)
  end.

(** The state of the map after the entries with headers [earlier]: a
    header seen once awaits its error, a header seen again has had it. *)
Definition tracks (earlier : list string) (singleAction : gmap string bool) : Prop :=
  ∀ k, singleAction !! k =
       match occ k earlier with
       | O => None
       | S O => Some true
       | _ => Some false
       end.

(** Entries whose reported value carries the header they name. *)
Definition names_value (a : action) : Prop := value_name (act_value a) = act_name a.

(** The errors of the header-modifier check for a payload that may be
    absent. *)
Definition headerModifierErrs (m : option HTTPHeaderFilter.t) (path : Path) : ErrorList :=
  match m with
  | Some f => conflicts [] (actions f path)
  | None => []
  end.

(** The errors [validateHTTPRouteFilters] collects for filter number [i]. *)
Definition filterErrs (path : Path) (i : nat) (f : HTTPRouteFilter.t) : ErrorList :=
  headerModifierErrs (HTTPRouteFilter.RequestHeaderModifier f)
    (Child (Index path i) "requestHeaderModifier")
  ++ headerModifierErrs (HTTPRouteFilter.ResponseHeaderModifier f)
       (Child (Index path i) "responseHeaderModifier").

Definition hasType (t : HTTPRouteFilterType) (filters : list HTTPRouteFilter.t) : Prop :=
  t ∈ HTTPRouteFilter.Type' <$> filters.

Global Instance hasType_dec t filters : Decision (hasType t filters).
Proof. unfold hasType. apply _. Defined.

(** The error for a filter list with both a redirect and a rewrite. *)
Definition kindConflict (filters : list HTTPRouteFilter.t) (path : Path) : ErrorList :=
  if decide (hasType HTTPRouteFilterRequestRedirect filters ∧ hasType HTTPRouteFilterURLRewrite filters)
  then [Invalid (Child path "filters") (VFilterType HTTPRouteFilterRequestRedirect) msgFilterConflict]
  else [].

Definition routeFiltersErrs (filters : list HTTPRouteFilter.t) (path : Path) : ErrorList :=
  mjoin (imap (filterErrs path) filters) ++ kindConflict filters path.

(** The folded names of a list of header matches. *)
Definition headerKeys (matches : list HTTPHeaderMatch.t) : list string :=
  (λ m, ToLower (HTTPHeaderMatch.Name m)) <$> matches.

(** The error [validateHTTPHeaderMatches] reports for a folded name. *)
Definition headerMatchErr (path : Path) (name : string) : Error :=
  Invalid path (VString (CanonicalHeaderKey name)) msgHeaderMatch.

(** [runs_from R i l e]: the errors [e] are, in order, one result of [R]
    for each element of [l], the elements being numbered from [i]. *)
Fixpoint runs_from {A} (R : nat → A → ErrorList → Prop) (i : nat) (l : list A) (e : ErrorList) : Prop :=
  match l with
  | [] => e = []
  | x :: l' => ∃ e1 e2, R i x e1 ∧ runs_from R (S i) l' e2 ∧ e = e1 ++ e2
  end.

Definition rulePath (path : Path) (i : nat) : Path := Index (Child path "rules") i.
Definition backendRefPath (path : Path) (i j : nat) : Path :=
  Index (Child (rulePath path i) "backendRefs") j.
Definition headersPath (path : Path) (i j : nat) : Path :=
  Child (Index (Child (rulePath path i) "matches") j) "headers".

(** The errors a run reports for match block [j] of rule [i]: those of a
    run of [validateHTTPHeaderMatches] when the block has header matches,
    none otherwise. *)
Definition matchRun (path : Path) (i j : nat) (m : HTTPRouteMatch.t) (e : ErrorList) : Prop :=
  if 0 <? len (HTTPRouteMatch.Headers m)
  then Returns e [] ∈ validateHTTPHeaderMatches (HTTPRouteMatch.Headers m) (headersPath path i j)
  else e = [].

(** The errors of the filter lists of the backend references of a rule. *)
Definition backendRefsErrs (path : Path) (i : nat) (rule : HTTPRouteRule.t) : ErrorList :=
  mjoin (imap (λ j b, routeFiltersErrs (HTTPBackendRef.Filters b) (backendRefPath path i j))
               (HTTPRouteRule.BackendRefs rule)).

(** The errors a run reports for rule [i]. *)
Definition ruleRun (path : Path) (i : nat) (rule : HTTPRouteRule.t) (e : ErrorList) : Prop :=
  ∃ em, runs_from (matchRun path i) 0 (HTTPRouteRule.Matches rule) em ∧
        e = routeFiltersErrs (HTTPRouteRule.Filters rule) (rulePath path i)
            ++ backendRefsErrs path i rule ++ em.

(** The calls of [validateHTTPHeaderModifier] that [validateHTTPRouteFilters]
    makes for filter number [i]: one for each header-modifier payload that
    is present, with its path. *)
Definition delegations (path : Path) (i : nat) (f : HTTPRouteFilter.t)
    : list (HTTPHeaderFilter.t * Path) :=
  match HTTPRouteFilter.RequestHeaderModifier f with
  | Some m => [(m, Child (Index path i) "requestHeaderModifier")]
  | None => []
  end
  ++ match HTTPRouteFilter.ResponseHeaderModifier f with
     | Some m => [(m, Child (Index path i) "responseHeaderModifier")]
     | None => []
     end.

(** At most one folded header name is repeated in a match block. *)
Definition atMostOneDuplicate (m : HTTPRouteMatch.t) : Prop :=
  ∀ k1 k2,
    (2 ≤ occ k1 (headerKeys (HTTPRouteMatch.Headers m)))%nat →
    (2 ≤ occ k2 (headerKeys (HTTPRouteMatch.Headers m)))%nat →
    k1 = k2.


(** [spec] with the query parameter matches of every match block replaced
    by those [q] gives for the block. *)
Definition replaceQueryParams (q : HTTPRouteMatch.t → list HTTPQueryParamMatch.t)
    (spec : HTTPRouteSpec.t) : HTTPRouteSpec.t :=
  let inMatch m :=
    {| HTTPRouteMatch.Headers := HTTPRouteMatch.Headers m;
       HTTPRouteMatch.QueryParams := q m |} in
  let inRule r :=
    {| HTTPRouteRule.Matches := inMatch <$> HTTPRouteRule.Matches r;
       HTTPRouteRule.Filters := HTTPRouteRule.Filters r;
       HTTPRouteRule.BackendRefs := HTTPRouteRule.BackendRefs r |} in
  {| HTTPRouteSpec.ParentRefs := HTTPRouteSpec.ParentRefs spec;
     HTTPRouteSpec.Rules := inRule <$> HTTPRouteSpec.Rules spec |}.

End Validation.
End validation.

(* ===================================================================== *)
(** * Inputs of the package's tests (httproute_test.go) and others *)
(* ===================================================================== *)

Module examples.
Import field gatewayv1b1 Go validation.

(** A collaborator that finds nothing wrong with the parent references. *)
Definition noParentRefErrs (_ : list ParentReference.t) (_ : Path) : ErrorList := [].

(** The validation with the ASCII models of the library functions. *)
Definition validate (route : HTTPRoute.t) : M ErrorList :=
  ValidateHTTPRoute strings.ToLower http.CanonicalHeaderKey noParentRefErrs route.

Definition header (name value : string) : HTTPHeader.t :=
  {| HTTPHeader.Name := name; HTTPHeader.Value := value |}.

Definition headerFilter (add set : list HTTPHeader.t) (remove : list string) : HTTPHeaderFilter.t :=
  {| HTTPHeaderFilter.Set' := set; HTTPHeaderFilter.Add := add; HTTPHeaderFilter.Remove := remove |}.

Definition headerMatch (name value : string) : HTTPHeaderMatch.t :=
  {| HTTPHeaderMatch.Name := name; HTTPHeaderMatch.Value := value |}.

Definition queryParamMatch (name value : string) : HTTPQueryParamMatch.t :=
  {| HTTPQueryParamMatch.Name := name; HTTPQueryParamMatch.Value := value |}.

Definition service (name : string) : BackendObjectReference.t :=
  {| BackendObjectReference.Name := name; BackendObjectReference.Port := Some 8080 |}.

Definition testBackendRef : HTTPBackendRef.t :=
  {| HTTPBackendRef.BackendRef := service "test";
     HTTPBackendRef.Weight := None;
     HTTPBackendRef.Filters := [] |}.

(** A filter of the given type that carries the given header modifiers and
    no other payload. *)
Definition modifierFilter (type : HTTPRouteFilterType) (request response : option HTTPHeaderFilter.t)
    : HTTPRouteFilter.t :=
  {| HTTPRouteFilter.Type' := type;
     HTTPRouteFilter.RequestHeaderModifier := request;
     HTTPRouteFilter.ResponseHeaderModifier := response;
     HTTPRouteFilter.RequestMirror := None;
     HTTPRouteFilter.RequestRedirect := None;
     HTTPRouteFilter.URLRewrite := None |}.

Definition mirrorFilter (name : string) : HTTPRouteFilter.t :=
  {| HTTPRouteFilter.Type' := HTTPRouteFilterRequestMirror;
     HTTPRouteFilter.RequestHeaderModifier := None;
     HTTPRouteFilter.ResponseHeaderModifier := None;
     HTTPRouteFilter.RequestMirror := Some (HTTPRequestMirrorFilter.mk (service name));
     HTTPRouteFilter.RequestRedirect := None;
     HTTPRouteFilter.URLRewrite := None |}.

Definition redirectFilter : HTTPRouteFilter.t :=
  {| HTTPRouteFilter.Type' := HTTPRouteFilterRequestRedirect;
     HTTPRouteFilter.RequestHeaderModifier := None;
     HTTPRouteFilter.ResponseHeaderModifier := None;
     HTTPRouteFilter.RequestMirror := None;
     HTTPRouteFilter.RequestRedirect := Some (HTTPRequestRedirectFilter.mk None);
     HTTPRouteFilter.URLRewrite := None |}.

Definition rewriteFilter : HTTPRouteFilter.t :=
  {| HTTPRouteFilter.Type' := HTTPRouteFilterURLRewrite;
     HTTPRouteFilter.RequestHeaderModifier := None;
     HTTPRouteFilter.ResponseHeaderModifier := None;
     HTTPRouteFilter.RequestMirror := None;
     HTTPRouteFilter.RequestRedirect := None;
     HTTPRouteFilter.URLRewrite := Some (HTTPURLRewriteFilter.mk None) |}.

Definition rule (matches : list HTTPRouteMatch.t) (filters : list HTTPRouteFilter.t)
    (backendRefs : list HTTPBackendRef.t) : HTTPRouteRule.t :=
  {| HTTPRouteRule.Matches := matches;
     HTTPRouteRule.Filters := filters;
     HTTPRouteRule.BackendRefs := backendRefs |}.

Definition routeOf (rules : list HTTPRouteRule.t) : HTTPRoute.t :=
  {| HTTPRoute.Spec := {| HTTPRouteSpec.ParentRefs := []; HTTPRouteSpec.Rules := rules |} |}.

(** ** TestValidateHTTPHeaderMatches and TestValidateHTTPQueryParamMatches *)

(** The route the tests build around a list of header matches. *)
Definition routeWithHeaders (headerMatches : list HTTPHeaderMatch.t) : HTTPRoute.t :=
  routeOf [rule [{| HTTPRouteMatch.Headers := headerMatches; HTTPRouteMatch.QueryParams := [] |}]
             [] [testBackendRef]].

(** The route the tests build around a list of query parameter matches. *)
Definition routeWithQueryParams (queryParamMatches : list HTTPQueryParamMatch.t) : HTTPRoute.t :=
  routeOf [rule [{| HTTPRouteMatch.Headers := []; HTTPRouteMatch.QueryParams := queryParamMatches |}]
             [] [testBackendRef]].

(** header matched more than once (same case) *)
Definition headersSameCase : list HTTPHeaderMatch.t :=
  [headerMatch "Header-Name-1" "val-1";
   headerMatch "Header-Name-2" "val-2";
   headerMatch "Header-Name-1" "val-3"].

(** header matched more than once (different case) *)
Definition headersDifferentCase : list HTTPHeaderMatch.t :=
  [headerMatch "Header-Name-1" "val-1";
   headerMatch "Header-Name-2" "val-2";
   headerMatch "HEADER-NAME-2" "val-3"].

(** no header matched more than once *)
Definition headersDistinct : list HTTPHeaderMatch.t :=
  [headerMatch "Header-Name-1" "val-1";
   headerMatch "Header-Name-2" "val-2";
   headerMatch "Header-Name-3" "val-3"].

(** query param matched more than once *)
Definition queryParamsRepeated : list HTTPQueryParamMatch.t :=
  [queryParamMatch "query-param-1" "val-1";
   queryParamMatch "query-param-2" "val-2";
   queryParamMatch "query-param-1" "val-3"].

(** ** TestValidateHTTPRoute and TestValidateHTTPBackendUniqueFilters *)

(** The route the tests build around the filters of one rule. *)
Definition routeWithFilters (filters : list HTTPRouteFilter.t) : HTTPRoute.t :=
  routeOf [rule [] filters []].

(** multiple actions for the same request header (invalid) *)
Definition fruitFilter : HTTPHeaderFilter.t :=
  headerFilter
    [header "x-fruit" "apple"; header "x-vegetable" "carrot"; header "x-grain" "rye"]
    [header "x-fruit" "watermelon"; header "x-grain" "wheat"; header "x-spice" "coriander"]
    [].

(** multiple actions for the same request header with inconsistent case (invalid) *)
Definition fruitFilterCase : HTTPHeaderFilter.t :=
  headerFilter [header "x-fruit" "apple"] [header "X-Fruit" "watermelon"] [].

(** multiple of the same action for the same request header (invalid) *)
Definition fruitFilterTwice : HTTPHeaderFilter.t :=
  headerFilter [header "x-fruit" "apple"; header "x-fruit" "plum"] [] [].

(** multiple actions for the same response header (invalid) *)
Definition exampleFilter : HTTPHeaderFilter.t :=
  headerFilter [header "x-example" "blueberry"] [header "x-example" "turnip"] [].

(** valid httpRoute Rules duplicate mirror filter *)
Definition routeWithMirrors : HTTPRoute.t :=
  routeOf [rule [] []
             [{| HTTPBackendRef.BackendRef := service "testService";
                 HTTPBackendRef.Weight := None;
                 HTTPBackendRef.Filters := [mirrorFilter "testService"; mirrorFilter "specialService"] |}]].

(** ** Further inputs *)

(** Two header names, each matched twice. *)
Definition headersTwoDuplicates : list HTTPHeaderMatch.t :=
  [headerMatch "Alpha" "1"; headerMatch "Beta" "2"; headerMatch "alpha" "3"; headerMatch "beta" "4"].

(** One header added twice, set and removed. *)
Definition fruitFilterFourTimes : HTTPHeaderFilter.t :=
  headerFilter [header "x-fruit" "apple"; header "x-fruit" "plum"] [header "X-Fruit" "kiwi"]
    ["X-FRUIT"].

(** A mirror filter that also carries a request header modifier. *)
Definition mirrorWithModifier : HTTPRouteFilter.t :=
  {| HTTPRouteFilter.Type' := HTTPRouteFilterRequestMirror;
     HTTPRouteFilter.RequestHeaderModifier := Some fruitFilterTwice;
     HTTPRouteFilter.ResponseHeaderModifier := None;
     HTTPRouteFilter.RequestMirror := Some (HTTPRequestMirrorFilter.mk (service "testService"));
     HTTPRouteFilter.RequestRedirect := None;
     HTTPRouteFilter.URLRewrite := None |}.

(** A rule that redirects and rewrites. *)
Definition redirectingRule : HTTPRouteRule.t := rule [] [redirectFilter; rewriteFilter] [].

(** The errors the examples lead to. *)
Definition headersAt (i j : nat) : Path :=
  [Name "spec"; Name "rules"; Idx i; Name "matches"; Idx j; Name "headers"].

Definition duplicateHeader (i j : nat) (name : string) : Error :=
  Invalid (headersAt i j) (VString name) msgHeaderMatch.

Definition conflictingAction (listPath : Path) (name value : string) : Error :=
  Invalid listPath (VHeader (header name value)) msgHeaderAction.

Definition redirectWithRewrite (filtersPath : Path) : Error :=
  Invalid filtersPath (VFilterType HTTPRouteFilterRequestRedirect) msgFilterConflict.

Definition parentRefsCall : Call := CallValidateParentRefs [] [Name "spec"; Name "spec"].

End examples.

(* ===================================================================== *)
(** * What the validation accepts *)
(* ===================================================================== *)

Module validity.
Import field gatewayv1b1 Go validation.

Section Validity.
Variable ToLower : string → string.

(** The header names of the entries of a header modifier, in the order the
    code visits them. *)
Definition modifierNames (m : HTTPHeaderFilter.t) : list string :=
  (HTTPHeader.Name <$> HTTPHeaderFilter.Add m)
  ++ (HTTPHeader.Name <$> HTTPHeaderFilter.Set' m)
  ++ HTTPHeaderFilter.Remove m.

(** No two entries of the header modifier name the same header, names
    being folded. *)
Definition modifierValid (m : HTTPHeaderFilter.t) : Prop :=
  NoDup (ToLower <$> modifierNames m).

(** The header modifiers a filter carries. *)
Definition modifiersOf (f : HTTPRouteFilter.t) : list HTTPHeaderFilter.t :=
  option_list (HTTPRouteFilter.RequestHeaderModifier f)
  ++ option_list (HTTPRouteFilter.ResponseHeaderModifier f).

(** Every header modifier of the filter list is valid and the list does
    not hold both a redirect and a rewrite. *)
Definition filtersValid (filters : list HTTPRouteFilter.t) : Prop :=
  (∀ f m, f ∈ filters → m ∈ modifiersOf f → modifierValid m) ∧
  ¬ (hasType HTTPRouteFilterRequestRedirect filters ∧ hasType HTTPRouteFilterURLRewrite filters).

(** No two header matches of the match block have the same folded name. *)
Definition matchValid (m : HTTPRouteMatch.t) : Prop :=
  NoDup (headerKeys ToLower (HTTPRouteMatch.Headers m)).

Definition ruleValid (rule : HTTPRouteRule.t) : Prop :=
  filtersValid (HTTPRouteRule.Filters rule) ∧
  (∀ b, b ∈ HTTPRouteRule.BackendRefs rule → filtersValid (HTTPBackendRef.Filters b)) ∧
  (∀ m, m ∈ HTTPRouteRule.Matches rule → matchValid m).

Definition specValid (spec : HTTPRouteSpec.t) : Prop :=
  ∀ rule, rule ∈ HTTPRouteSpec.Rules spec → ruleValid rule.

End Validity.

(** A filter with its mirror, redirect and rewrite payloads replaced. *)
Definition replacePayloads
    (mirror : HTTPRouteFilter.t → option HTTPRequestMirrorFilter.t)
    (redirect : HTTPRouteFilter.t → option HTTPRequestRedirectFilter.t)
    (rewrite : HTTPRouteFilter.t → option HTTPURLRewriteFilter.t)
    (f : HTTPRouteFilter.t) : HTTPRouteFilter.t :=
  {| HTTPRouteFilter.Type' := HTTPRouteFilter.Type' f;
     HTTPRouteFilter.RequestHeaderModifier := HTTPRouteFilter.RequestHeaderModifier f;
     HTTPRouteFilter.ResponseHeaderModifier := HTTPRouteFilter.ResponseHeaderModifier f;
     HTTPRouteFilter.RequestMirror := mirror f;
     HTTPRouteFilter.RequestRedirect := redirect f;
     HTTPRouteFilter.URLRewrite := rewrite f |}.

End validity.

Module validity_examples.
Import gatewayv1b1 examples.

(** The names of [headersDifferentCase] in another order and another case. *)
Definition headersReordered : list HTTPHeaderMatch.t :=
  [headerMatch "header-name-2" "val-4";
   headerMatch "HEADER-NAME-1" "val-5";
   headerMatch "Header-Name-2" "val-6"].

End validity_examples.

(* ===================================================================== *)
(** * What the validation reports *)
(* ===================================================================== *)

Module reports.
Import field gatewayv1b1 Go validation.

Section Reports.
Variable ToLower CanonicalHeaderKey : string → string.

(** [e] is the error for an entry of the header modifier that is the
    second entry for its header, the entries being taken in the order
    [Add], [Set], [Remove]. *)
Definition repeatedAction (modifier : HTTPHeaderFilter.t) (path : Path) (e : Error) : Prop :=
  ∃ pre a post,
    actions modifier path = pre ++ a :: post ∧
    occ (key ToLower a) (key ToLower <$> pre) = 1%nat ∧
    e = Invalid (act_sub a) (act_value a) msgHeaderAction.

(** [e] is the error for something wrong in the filter list checked at
    [path]: the list holds both a redirect and a rewrite, or a header
    modifier carried by filter number [k] names a header again. *)
Definition filterViolation (filters : list HTTPRouteFilter.t) (path : Path) (e : Error) : Prop :=
  (hasType HTTPRouteFilterRequestRedirect filters ∧
   hasType HTTPRouteFilterURLRewrite filters ∧
   e = Invalid (Child path "filters") (VFilterType HTTPRouteFilterRequestRedirect)
         msgFilterConflict) ∨
  (∃ k f modifier,
     filters !! k = Some f ∧
     (HTTPRouteFilter.RequestHeaderModifier f = Some modifier ∧
      repeatedAction modifier (Child (Index path k) "requestHeaderModifier") e ∨
      HTTPRouteFilter.ResponseHeaderModifier f = Some modifier ∧
      repeatedAction modifier (Child (Index path k) "responseHeaderModifier") e)).

(** [e] is the error for a folded name that two or more of the header
    matches carry. *)
Definition headerViolation (headers : list HTTPHeaderMatch.t) (path : Path) (e : Error) : Prop :=
  ∃ k, (2 ≤ occ k (headerKeys ToLower headers))%nat ∧
       e = Invalid path (VString (CanonicalHeaderKey k)) msgHeaderMatch.

(** [e] is the error for something wrong in rule number [i]: in its
    filters, in the filters of one of its backend references or in the
    header matches of one of its match blocks. *)
Definition ruleViolation (path : Path) (i : nat) (rule : HTTPRouteRule.t) (e : Error) : Prop :=
  filterViolation (HTTPRouteRule.Filters rule) (rulePath path i) e ∨
  (∃ j backendRef,
     HTTPRouteRule.BackendRefs rule !! j = Some backendRef ∧
     filterViolation (HTTPBackendRef.Filters backendRef) (backendRefPath path i j) e) ∨
  (∃ j m,
     HTTPRouteRule.Matches rule !! j = Some m ∧
     headerViolation (HTTPRouteMatch.Headers m) (headersPath path i j) e).

Definition violation (spec : HTTPRouteSpec.t) (path : Path) (e : Error) : Prop :=
  ∃ i rule, HTTPRouteSpec.Rules spec !! i = Some rule ∧ ruleViolation path i rule e.

(** Two errors that are the same, or that are both the error for a
    repeated header match at one path and differ only in the name they
    report. *)
Definition sameButName (e1 e2 : Error) : Prop :=
  e1 = e2 ∨
  ∃ path k1 k2,
    e1 = Invalid path (VString k1) msgHeaderMatch ∧
    e2 = Invalid path (VString k2) msgHeaderMatch.

End Reports.
End reports.

Module reports_examples.
Import gatewayv1b1 examples.

(** A rule with something wrong in its filters, in the filters of its
    backend reference, in its header matches and in its query parameter
    matches. *)
Definition crowdedRule : HTTPRouteRule.t :=
  rule [{| HTTPRouteMatch.Headers := headersSameCase;
           HTTPRouteMatch.QueryParams := queryParamsRepeated |}]
       [redirectFilter; rewriteFilter;
        modifierFilter HTTPRouteFilterRequestHeaderModifier (Some fruitFilterTwice) None]
       [{| HTTPBackendRef.BackendRef := service "test";
           HTTPBackendRef.Weight := None;
           HTTPBackendRef.Filters :=
             [modifierFilter HTTPRouteFilterResponseHeaderModifier None (Some exampleFilter)] |}].

Definition crowdedRoute : HTTPRoute.t := routeOf [crowdedRule].

(** A rule whose match blocks each repeat one header name, and whose
    filters redirect and rewrite. *)
Definition twoBlocksRule : HTTPRouteRule.t :=
  rule [{| HTTPRouteMatch.Headers := headersSameCase; HTTPRouteMatch.QueryParams := [] |};
        {| HTTPRouteMatch.Headers := headersDifferentCase; HTTPRouteMatch.QueryParams := [] |}]
       [redirectFilter; rewriteFilter] [testBackendRef].

End reports_examples.

(* ===================================================================== *)
(** * The API types the printer reads (meta/v1 and apis/v1) *)
(* ===================================================================== *)

Module metav1.

Module Condition.
Record t : Type := mk {
  Type' : string;
  Status : string;
  ObservedGeneration : Z;
  LastTransitionTime : Z;
  Reason : string;
  Message : string;
}.
End Condition.

(** The fields of [ObjectMeta] that identify and describe an object; a
    time is a number of seconds and a nil map is [None]. *)
Module ObjectMeta.
Record t : Type := mk {
  Name : string;
  GenerateName : string;
  Namespace : string;
  UID : string;
  ResourceVersion : string;
  Generation : Z;
  CreationTimestamp : Z;
  Labels : option (gmap string string);
  Annotations : option (gmap string string);
}.
End ObjectMeta.

End metav1.

Module gatewayv1.

Module GatewayClassSpec.
Record t : Type := mk { ControllerName : string; Description : option string }.
End GatewayClassSpec.

Module GatewayClassStatus.
Record t : Type := mk { Conditions : list metav1.Condition.t }.
End GatewayClassStatus.

Module GatewayClass.
Record t : Type := mk {
  Kind : string;
  APIVersion : string;
  ObjectMeta : metav1.ObjectMeta.t;
  Spec : GatewayClassSpec.t;
  Status : GatewayClassStatus.t;
}.
End GatewayClass.

End gatewayv1.

(* ===================================================================== *)
(** * Runs of Go code that prints *)
(* ===================================================================== *)

Module IO.

Section IO.
(** The state of the clock the printer reads. *)
Variable Clock : Type.

(** What a run has written to the writer of the printer and to the
    standard error stream, oldest first, and the clock. *)
Record world : Type := mkWorld { out : list string; err : list string; clock : Clock }.

(** A run ends by returning or by leaving the program ([os.Exit]). *)
Inductive result (A : Type) : Type :=
| Done (a : A) (w : world)
| Exited (code : Z) (w : world).

(** The possible runs from a state. *)
Definition P (A : Type) : Type := world → list (result A).

Definition ret {A} (a : A) : P A := λ w, [Done A a w].

Definition bind {A B} (m : P A) (k : A → P B) : P B :=
  λ w, r ← m w;
       match r with
       | Done _ a w' => k a w'
       | Exited _ code w' => [Exited B code w']
       end.

(** One run per element of [l]. *)
Definition choose {A} (l : list A) : P A := λ w, (λ a, Done A a w) <$> l.

(** [fmt.Fprint] on the writer of the printer. *)
Definition Fprint (s : string) : P unit :=
  λ w, [Done unit tt (mkWorld (out w ++ [s]) (err w) (clock w))].

(** [fmt.Fprint] on [os.Stderr]. *)
Definition Fprint_Stderr (s : string) : P unit :=
  λ w, [Done unit tt (mkWorld (out w) (err w ++ [s]) (clock w))].

(** [os.Exit] *)
Definition Exit {A} (code : Z) : P A := λ w, [Exited A code w].

(** A read of the clock by [read], which gives the value read and the
    next state of the clock. *)
Definition readClock {A} (read : Clock → A * Clock) : P A :=
  λ w, let '(a, c) := read (clock w) in [Done A a (mkWorld (out w) (err w) c)].

(** [maps.Values]: the values of a map, in an order that is not
    specified. *)
Definition maps_Values `{Countable K} {V} (m : gmap K V) : P (list V) :=
  choose (permutations ((map_to_list m).*2)).

(** [for k, v := range m]: the entries of a map, in an order that is not
    specified. *)
Definition range_map `{Countable K} {V} (m : gmap K V) : P (list (K * V)) :=
  choose (permutations (map_to_list m)).

(** [for _, x := range s { body }] over a slice, threading the variables
    the body assigns. *)
Fixpoint for_range {A St} (s : list A) (body : A → St → P St) (st : St) : P St :=
  match s with
  | [] => ret st
  | x :: s' => bind (body x st) (for_range s' body)
  end.

End IO.

Global Arguments out {Clock} w.
Global Arguments err {Clock} w.
Global Arguments clock {Clock} w.
Global Arguments mkWorld {Clock} out err clock.
Global Arguments Done {Clock A} a w.
Global Arguments Exited {Clock A} code w.
Global Arguments ret {Clock A} a w.
Global Arguments bind {Clock A B} m k w.
Global Arguments choose {Clock A} l w.
Global Arguments Fprint {Clock} s w.
Global Arguments Fprint_Stderr {Clock} s w.
Global Arguments Exit {Clock A} code w.
Global Arguments readClock {Clock A} read w.
Global Arguments maps_Values {Clock K _ _ V} m w.
Global Arguments range_map {Clock K _ _ V} m w.
Global Arguments for_range {Clock A St} s body st w.

End IO.

Notation "x <~ m ;; k" := (IO.bind m (λ x, k))
  (at level 20, m at level 99, k at level 200, only parsing).

(* ===================================================================== *)
(** * gwctl/pkg/printer/gatewayclasses.go *)
(* ===================================================================== *)

Module printer.
Import IO.

(** [Table] of the package: the column names, the rows and whether a
    separator is printed. *)
Record Table : Type := mkTable {
  ColumnNames : list string;
  Rows : list (list string);
  UseSeparator : bool;
}.

Definition newline : string := String (ascii_of_nat 10) EmptyString.

Section Printer.
(** The policies attached to a node and the references [resourcediscovery]
    makes of them, the keys of the map of gateway classes and the state of
    the clock are types of other packages. *)
Variable Policies ObjRef Clock : Type.
Context `{Countable ClassID}.

(** [resourcediscovery.GatewayClassNode]: the pointer to the gateway class
    is not nil. *)
Record GatewayClassNode : Type := mkNode {
  GatewayClass : gatewayv1.GatewayClass.t;
  NodePolicies : Policies;
}.

Record ResourceModel : Type := mkModel { GatewayClasses : gmap ClassID GatewayClassNode }.

Record gatewayClassDescribeView : Type := mkView {
  APIVersion : string;
  Kind : string;
  Metadata : option metav1.ObjectMeta.t;
  Labels : option (option (gmap string string));
  Annotations : option (option (gmap string string));
  Name : string;
  ControllerName : string;
  Description : option string;
  Status : option gatewayv1.GatewayClassStatus.t;
  DirectlyAttachedPolicies : list ObjRef;
}.

(** Functions of other packages and files: [SortByString] of the package, [Clock.Since] of the printer's clock,
    [duration.HumanDuration], the [Write] method of a table,
    [yaml.Marshal] (its bytes or the message of its error),
    [strings.TrimSpace], [resourcediscovery.ConvertPoliciesMapToPolicyRefs]
    and the chain [GetObjectKind().GroupVersionKind().ToAPIVersionAndKind()]. *)
Variable SortByString : list GatewayClassNode → list GatewayClassNode.
Variable Since : Z → Clock → Z * Clock.
Variable HumanDuration : Z → string.
Variable TableWrite : Table → Z → string.
Variable Marshal : gatewayClassDescribeView → string + string.
Variable TrimSpace : string → string.
Variable ConvertPoliciesMapToPolicyRefs : Policies → list ObjRef.
Variable ToAPIVersionAndKind : gatewayv1.GatewayClass.t → string * string.

(** The loop over the conditions in [PrintTable]; it has no effect but on
    [accepted]. *)
Definition acceptedOf (conditions : list metav1.Condition.t) : string :=
  let accepted := "Unknown" in
  foldl (λ accepted condition,
           if decide (metav1.Condition.Type' condition = "Accepted")
           then metav1.Condition.Status condition
           else accepted)
        accepted conditions.

Definition PrintTable (resourceModel : ResourceModel) : P Clock unit :=
  let table := {| ColumnNames := ["NAME"; "CONTROLLER"; "ACCEPTED"; "AGE"];
                  Rows := [];
                  UseSeparator := false |} in
  gatewayClassNodes <~ maps_Values (GatewayClasses resourceModel) ;;
  table <~ for_range (SortByString gatewayClassNodes) (λ gatewayClassNode table,
      let gatewayClass := GatewayClass gatewayClassNode in
      let accepted := acceptedOf (gatewayv1.GatewayClassStatus.Conditions
                                    (gatewayv1.GatewayClass.Status gatewayClass)) in
      d <~ readClock (Since (metav1.ObjectMeta.CreationTimestamp
                               (gatewayv1.GatewayClass.ObjectMeta gatewayClass))) ;;
      let age := HumanDuration d in
      let row := [metav1.ObjectMeta.Name (gatewayv1.GatewayClass.ObjectMeta gatewayClass);
                  gatewayv1.GatewayClassSpec.ControllerName (gatewayv1.GatewayClass.Spec gatewayClass);
                  accepted;
                  age] in
      ret {| ColumnNames := ColumnNames table;
             Rows := Rows table ++ [row];
             UseSeparator := UseSeparator table |})
      table ;;
  Fprint (TableWrite table 0).

(** The views [PrintDescribeView] makes of a gateway class, in the order
    it prints them. *)
Definition describeViews (gatewayClassNode : GatewayClassNode) : list gatewayClassDescribeView :=
  let gatewayClass := GatewayClass gatewayClassNode in
  let objectMeta := gatewayv1.GatewayClass.ObjectMeta gatewayClass in
  let '(apiVersion, kind) := ToAPIVersionAndKind gatewayClass in
  let metadata :=
    {| metav1.ObjectMeta.Name := "";
       metav1.ObjectMeta.GenerateName := metav1.ObjectMeta.GenerateName objectMeta;
       metav1.ObjectMeta.Namespace := "";
       metav1.ObjectMeta.UID := metav1.ObjectMeta.UID objectMeta;
       metav1.ObjectMeta.ResourceVersion := metav1.ObjectMeta.ResourceVersion objectMeta;
       metav1.ObjectMeta.Generation := metav1.ObjectMeta.Generation objectMeta;
       metav1.ObjectMeta.CreationTimestamp := metav1.ObjectMeta.CreationTimestamp objectMeta;
       metav1.ObjectMeta.Labels := None;
       metav1.ObjectMeta.Annotations := None |} in
  let views :=
    [ mkView "" "" None None None (metav1.ObjectMeta.Name objectMeta) "" None None [];
      mkView "" "" None (Some (metav1.ObjectMeta.Labels objectMeta)) None "" "" None None [];
      mkView "" "" None None (Some (metav1.ObjectMeta.Annotations objectMeta)) "" "" None None [];
      mkView apiVersion "" None None None "" "" None None [];
      mkView "" kind None None None "" "" None None [];
      mkView "" "" (Some metadata) None None "" "" None None [];
      mkView "" "" None None None ""
        (gatewayv1.GatewayClassSpec.ControllerName (gatewayv1.GatewayClass.Spec gatewayClass))
        None None [] ] in
  let views :=
    match gatewayv1.GatewayClassSpec.Description (gatewayv1.GatewayClass.Spec gatewayClass) with
    | Some description => views ++ [mkView "" "" None None None "" "" (Some description) None []]
    | None => views
    end in
  let views :=
    views ++ [mkView "" "" None None None "" "" None
                (Some (gatewayv1.GatewayClass.Status gatewayClass)) []] in
  let policyRefs := ConvertPoliciesMapToPolicyRefs (NodePolicies gatewayClassNode) in
  if decide (length policyRefs ≠ 0%nat)
  then views ++ [mkView "" "" None None None "" "" None None policyRefs]
  else views.

(** [index] counts the entries of the map visited so far, so it stays
    within the range of [int]. *)
Definition PrintDescribeView (resourceModel : ResourceModel) : P Clock unit :=
  let index := 0 in
  entries <~ range_map (GatewayClasses resourceModel) ;;
  index <~ for_range entries (λ '(_, gatewayClassNode) index,
      let index := index + 1 in
      let views := describeViews gatewayClassNode in
      _ <~ for_range views (λ view _,
             match Marshal view with
             | inr err =>
                 _ <~ Fprint_Stderr ("failed to marshal to yaml: " +:+ err +:+ newline) ;;
                 Exit 1
             | inl b =>
                 let output := b in
                 let emptyOutput := bool_decide (TrimSpace output = "{}") in
                 if negb emptyOutput then Fprint output else ret tt
             end) tt ;;
      _ <~ (if index + 1 <=? Z.of_nat (size (GatewayClasses resourceModel))
            then Fprint (newline +:+ newline)
            else ret tt) ;;
      ret index)
      index ;;
  ret tt.

End Printer.

Global Arguments GatewayClass {Policies} g.
Global Arguments NodePolicies {Policies} g.
Global Arguments mkNode {Policies} GatewayClass NodePolicies.
Global Arguments GatewayClasses {Policies ClassID _ _} r.
Global Arguments mkModel {Policies ClassID _ _} GatewayClasses.
Global Arguments APIVersion {ObjRef} g.
Global Arguments Kind {ObjRef} g.
Global Arguments Metadata {ObjRef} g.
Global Arguments Labels {ObjRef} g.
Global Arguments Annotations {ObjRef} g.
Global Arguments Name {ObjRef} g.
Global Arguments ControllerName {ObjRef} g.
Global Arguments Description {ObjRef} g.
Global Arguments Status {ObjRef} g.
Global Arguments DirectlyAttachedPolicies {ObjRef} g.
Global Arguments mkView {ObjRef} APIVersion Kind Metadata Labels Annotations Name
  ControllerName Description Status DirectlyAttachedPolicies.
Global Arguments PrintTable {Policies Clock ClassID _ _}
  SortByString Since HumanDuration TableWrite resourceModel w.
Global Arguments describeViews {Policies ObjRef}
  ConvertPoliciesMapToPolicyRefs ToAPIVersionAndKind gatewayClassNode.
Global Arguments PrintDescribeView {Policies ObjRef Clock ClassID _ _}
  Marshal TrimSpace ConvertPoliciesMapToPolicyRefs ToAPIVersionAndKind resourceModel w.

End printer.

(* ===================================================================== *)
(** * What the printer writes *)
(* ===================================================================== *)

Module printing.
Import printer.

Section Printing.
Variable Policies ObjRef Clock : Type.
Variable Since : Z → Clock → Z * Clock.
Variable HumanDuration : Z → string.
Variable Marshal : gatewayClassDescribeView ObjRef → string + string.
Variable TrimSpace : string → string.
Variable ConvertPoliciesMapToPolicyRefs : Policies → list ObjRef.
Variable ToAPIVersionAndKind : gatewayv1.GatewayClass.t → string * string.

(** The status of the last condition of type Accepted, if there is one. *)
Definition lastAccepted (conditions : list metav1.Condition.t) : option string :=
  metav1.Condition.Status <$>
    last (filter (λ condition, metav1.Condition.Type' condition = "Accepted") conditions).

(** The row of a gateway class whose age is [d]. *)
Definition rowOf (node : GatewayClassNode Policies) (d : Z) : list string :=
  let gatewayClass := GatewayClass node in
  [ metav1.ObjectMeta.Name (gatewayv1.GatewayClass.ObjectMeta gatewayClass);
    gatewayv1.GatewayClassSpec.ControllerName (gatewayv1.GatewayClass.Spec gatewayClass);
    default "Unknown" (lastAccepted (gatewayv1.GatewayClassStatus.Conditions
                                       (gatewayv1.GatewayClass.Status gatewayClass)));
    HumanDuration d ].

(** The ages of the nodes, read from the clock one after the other, and
    the clock after the last reading. *)
Fixpoint ages (nodes : list (GatewayClassNode Policies)) (c : Clock) : list Z * Clock :=
  match nodes with
  | [] => ([], c)
  | node :: nodes =>
      let '(d, c) := Since (metav1.ObjectMeta.CreationTimestamp
                              (gatewayv1.GatewayClass.ObjectMeta (GatewayClass node))) c in
      let '(ds, c) := ages nodes c in
      (d :: ds, c)
  end.

(** The rows of the nodes, from the clock [c]. *)
Definition rowsOf (nodes : list (GatewayClassNode Policies)) (c : Clock) : list (list string) :=
  zip_with rowOf nodes (ages nodes c).1.

Definition marshals (view : gatewayClassDescribeView ObjRef) : Prop :=
  ∃ b, Marshal view = inl b.

(** The line on the standard error stream for a view that fails to marshal. *)
Definition failure (e : string) : string :=
  "failed to marshal to yaml: " +:+ e +:+ newline.

(** The YAML of the views, without the ones that are [{}] once trimmed. *)
Definition printed (views : list (gatewayClassDescribeView ObjRef)) : list string :=
  filter (λ output, TrimSpace output ≠ "{}")
         (omap (λ view, match Marshal view with
                        | inl b => Some b
                        | inr _ => None
                        end) views).

(** What is written for one gateway class. *)
Definition block (node : GatewayClassNode Policies) : list string :=
  printed (describeViews ConvertPoliciesMapToPolicyRefs ToAPIVersionAndKind node).

(** The blocks with two newlines between each two of them, and none
    after the last. *)
Fixpoint separated (blocks : list (list string)) : list string :=
  match blocks with
  | [] => []
  | block :: blocks =>
      match blocks with
      | [] => block
      | _ :: _ => block ++ (newline +:+ newline) :: separated blocks
      end
  end.

End Printing.

Global Arguments rowOf {Policies} HumanDuration node d.
Global Arguments ages {Policies Clock} Since nodes c.
Global Arguments rowsOf {Policies Clock} Since HumanDuration nodes c.
Global Arguments marshals {ObjRef} Marshal view.
Global Arguments printed {ObjRef} Marshal TrimSpace views.
Global Arguments block {Policies ObjRef} Marshal TrimSpace
  ConvertPoliciesMapToPolicyRefs ToAPIVersionAndKind node.

End printing.

(* ===================================================================== *)
(** * Gateway classes to print *)
(* ===================================================================== *)

Module printer_examples.
Import IO printer printing.

(** Stand-ins for the functions of other packages, to run the printer:
    a node's policies are the references to them, the clock stands still,
    a node is sorted by its name, a duration is printed in seconds, a
    table is printed with a line for each row, a view with a line for
    each of its fields that is a string or a list of references. *)

Definition nameOf (node : GatewayClassNode (list string)) : string :=
  metav1.ObjectMeta.Name (gatewayv1.GatewayClass.ObjectMeta (GatewayClass node)).

Definition byName (node1 node2 : GatewayClassNode (list string)) : Prop :=
  String.leb (nameOf node1) (nameOf node2) = true.

#[export] Instance byName_dec node1 node2 : Decision (byName node1 node2).
Proof. unfold byName. apply _. Defined.

Definition SortByString : list (GatewayClassNode (list string)) → list (GatewayClassNode (list string)) :=
  merge_sort byName.

Definition Since (t : Z) (now : Z) : Z * Z := (now - t, now).

Definition HumanDuration (d : Z) : string := pretty d +:+ "s".

Definition TableWrite (table : Table) (indent : Z) : string :=
  String.concat newline (String.concat " " <$> (ColumnNames table :: Rows table)) +:+ newline.

Definition field (name value : string) : list string :=
  if decide (value = "") then [] else [name +:+ ": " +:+ value].

Definition yaml (view : gatewayClassDescribeView string) : string :=
  let lines :=
    field "APIVersion" (APIVersion view) ++
    field "Kind" (Kind view) ++
    field "Name" (Name view) ++
    field "ControllerName" (ControllerName view) ++
    field "Description" (default "" (Description view)) ++
    field "DirectlyAttachedPolicies" (String.concat ", " (DirectlyAttachedPolicies view)) in
  match lines with
  | [] => "{}" +:+ newline
  | _ :: _ => String.concat newline lines +:+ newline
  end.

Definition Marshal (view : gatewayClassDescribeView string) : string + string :=
  inl (yaml view).

Definition isSpace (c : ascii) : bool :=
  bool_decide (c = " "%char) || bool_decide (c = ascii_of_nat 10).

Fixpoint trimLeft (s : string) : string :=
  match s with
  | String c s' => if isSpace c then trimLeft s' else s
  | EmptyString => EmptyString
  end.

Definition TrimSpace (s : string) : string :=
  String.rev (trimLeft (String.rev (trimLeft s))).

Definition ConvertPoliciesMapToPolicyRefs (policies : list string) : list string := policies.

Definition ToAPIVersionAndKind (gatewayClass : gatewayv1.GatewayClass.t) : string * string :=
  (gatewayv1.GatewayClass.APIVersion gatewayClass, gatewayv1.GatewayClass.Kind gatewayClass).

Definition condition (type status : string) : metav1.Condition.t :=
  {| metav1.Condition.Type' := type;
     metav1.Condition.Status := status;
     metav1.Condition.ObservedGeneration := 0;
     metav1.Condition.LastTransitionTime := 0;
     metav1.Condition.Reason := "";
     metav1.Condition.Message := "" |}.

Definition gatewayClass (name controller : string) (created : Z)
    (description : option string) (conditions : list metav1.Condition.t)
    (policies : list string) : GatewayClassNode (list string) :=
  mkNode
    {| gatewayv1.GatewayClass.Kind := "GatewayClass";
       gatewayv1.GatewayClass.APIVersion := "gateway.networking.k8s.io/v1";
       gatewayv1.GatewayClass.ObjectMeta :=
         {| metav1.ObjectMeta.Name := name;
            metav1.ObjectMeta.GenerateName := "";
            metav1.ObjectMeta.Namespace := "";
            metav1.ObjectMeta.UID := "";
            metav1.ObjectMeta.ResourceVersion := "";
            metav1.ObjectMeta.Generation := 0;
            metav1.ObjectMeta.CreationTimestamp := created;
            metav1.ObjectMeta.Labels := None;
            metav1.ObjectMeta.Annotations := None |};
       gatewayv1.GatewayClass.Spec :=
         {| gatewayv1.GatewayClassSpec.ControllerName := controller;
            gatewayv1.GatewayClassSpec.Description := description |};
       gatewayv1.GatewayClass.Status :=
         {| gatewayv1.GatewayClassStatus.Conditions := conditions |} |}
    policies.

Definition fooClass : GatewayClassNode (list string) :=
  gatewayClass "foo-com-external-gateway-class" "foo.com/external-gateway-class" 400
    (Some "random") [condition "Accepted" "Unknown"; condition "Accepted" "True"]
    ["HealthCheckPolicy/policy-name"].

Definition barClass : GatewayClassNode (list string) :=
  gatewayClass "bar-com-internal-gateway-class" "bar.baz/internal-gateway-class" 700
    None [condition "Programmed" "True"] [].

Definition twoClasses : ResourceModel (list string) (ClassID:=string) :=
  mkModel {[ nameOf fooClass := fooClass; nameOf barClass := barClass ]}.

(** Nothing written yet, at time 1000. *)
Definition start : world Z := mkWorld [] [] 1000.

Definition tableOfTwoClasses : Table :=
  {| ColumnNames := ["NAME"; "CONTROLLER"; "ACCEPTED"; "AGE"];
     Rows := [ ["bar-com-internal-gateway-class"; "bar.baz/internal-gateway-class"; "Unknown"; "300s"];
               ["foo-com-external-gateway-class"; "foo.com/external-gateway-class"; "True"; "600s"] ];
     UseSeparator := false |}.

Definition line (s : string) : string := s +:+ newline.

(** What is written for the two classes, the second one first. *)
Definition describedBarThenFoo : list string :=
  [ line "Name: bar-com-internal-gateway-class";
    line "APIVersion: gateway.networking.k8s.io/v1";
    line "Kind: GatewayClass";
    line "ControllerName: bar.baz/internal-gateway-class";
    newline +:+ newline;
    line "Name: foo-com-external-gateway-class";
    line "APIVersion: gateway.networking.k8s.io/v1";
    line "Kind: GatewayClass";
    line "ControllerName: foo.com/external-gateway-class";
    line "Description: random";
    line "DirectlyAttachedPolicies: HealthCheckPolicy/policy-name" ].

End printer_examples.

(* ===================================================================== *)
(** * Facts about runs *)
(* ===================================================================== *)

Module GoFacts.
Import Go.

Lemma after_nil {B} (o : outcome B) : after [] o = o.
Proof. by destruct o. Qed.

Lemma fmap_after_nil {B} (m : M B) : after [] <$> m = m.
Proof.
  induction m as [|o m IH]; [done|].
  rewrite fmap_cons, after_nil. by f_equal.
Qed.

Lemma bind_ret_l {A B} (a : A) (k : A → M B) : bind (ret a) k = k a.
Proof.
  unfold bind, ret. rewrite bind_singleton. apply fmap_after_nil.
Qed.

Lemma elem_of_ret {A} (a : A) (o : outcome A) : o ∈ ret a ↔ o = Returns a [].
Proof. unfold ret. apply list_elem_of_singleton. Qed.

Lemma elem_of_bind {A B} (m : M A) (k : A → M B) (o : outcome B) :
  o ∈ bind m k ↔
  (o = Panics ∧ Panics ∈ m) ∨
  (∃ a c o', Returns a c ∈ m ∧ o' ∈ k a ∧ o = after c o').
Proof.
  unfold bind. rewrite list_elem_of_bind. split.
  - intros [[a c|] [Ho Hm]].
    + apply list_elem_of_fmap in Ho as (o' & -> & Ho'). right. by exists a, c, o'.
    + apply list_elem_of_singleton in Ho as ->. by left.
  - intros [[-> Hm]|(a & c & o' & Hm & Ho' & ->)].
    + exists Panics. split; [by apply list_elem_of_singleton|done].
    + exists (Returns a c). split; [|done]. apply list_elem_of_fmap. by exists o'.
Qed.

(** A loop whose body returns, without choice, a function of the element
    and the state computes the fold of that function. *)
Lemma for_range_from_pure {A St} (g : St → A → St) (body : nat → A → St → M St) :
  ∀ (s : list A) (off : nat) (st : St),
    (∀ j x st', s !! j = Some x → body (off + j)%nat x st' = ret (g st' x)) →
    for_range_from off s body st = ret (foldl g st s).
Proof.
  induction s as [|x s IH]; intros off st Hbody; [done|].
  simpl. rewrite <- (Nat.add_0_r off) at 1.
  rewrite (Hbody 0%nat x st eq_refl), bind_ret_l.
  apply IH. intros j y st' Hj.
  replace (S off + j)%nat with (off + S j)%nat by lia. by apply Hbody.
Qed.

Lemma elem_of_choose {A} (l : list A) (o : outcome A) :
  o ∈ choose l ↔ ∃ a, a ∈ l ∧ o = Returns a [].
Proof.
  unfold choose. rewrite list_elem_of_fmap. split.
  - intros (a & -> & Ha). by exists a.
  - intros (a & Ha & ->). by exists a.
Qed.

Lemma elem_of_bind_choose {A B} (l : list A) (k : A → M B) (o : outcome B) :
  o ∈ bind (choose l) k ↔ ∃ a, a ∈ l ∧ o ∈ k a.
Proof.
  rewrite elem_of_bind. split.
  - intros [[_ Hp]|(a & c & o' & Ha & Ho' & ->)].
    + apply elem_of_choose in Hp as (a & _ & Hp). discriminate Hp.
    + apply elem_of_choose in Ha as (a' & Ha' & Heq). simplify_eq.
      rewrite after_nil. by exists a'.
  - intros (a & Ha & Ho). right. exists a, [], o. rewrite after_nil.
    split; [|done]. apply elem_of_choose. by exists a.
Qed.

Lemma elem_of_bind_returns {A B} (m : M A) (k : A → M B) (P : A → Prop) :
  (∀ o, o ∈ m ↔ ∃ a, P a ∧ o = Returns a []) →
  ∀ o, o ∈ bind m k ↔ ∃ a, P a ∧ o ∈ k a.
Proof.
  intros Hm o. rewrite elem_of_bind. split.
  - intros [[_ Hp]|(a & c & o' & Ha & Ho' & ->)].
    + apply Hm in Hp as (a & _ & Hp). discriminate Hp.
    + apply Hm in Ha as (a' & Ha' & Heq). simplify_eq.
      rewrite after_nil. by exists a'.
  - intros (a & Ha & Ho). right. exists a, [], o. rewrite after_nil.
    split; [|done]. apply Hm. by exists a.
Qed.

Lemma bind_external {A B} (c : Call) (r : A) (k : A → M B) :
  bind (external c r) k = after [c] <$> k r.
Proof. unfold bind, external. by rewrite bind_singleton. Qed.

(** A loop whose body appends, without choice, a function of the index and
    the element. *)
Lemma for_range_from_append {A E} (f : nat → A → list E) (body : nat → A → list E → M (list E)) :
  (∀ i x st, body i x st = ret (st ++ f i x)) →
  ∀ (s : list A) (off : nat) (st : list E),
    for_range_from off s body st = ret (st ++ mjoin (imap (λ j, f (off + j)%nat) s)).
Proof.
  intros Hbody. induction s as [|x s IH]; intros off st.
  { simpl. by rewrite app_nil_r. }
  cbn [for_range_from]. rewrite Hbody, bind_ret_l, IH, imap_cons.
  cbn [mjoin list_join]. rewrite Nat.add_0_r, <- (assoc_L (++)). do 4 f_equal.
  apply imap_ext. intros j y _. simpl. by rewrite Nat.add_succ_r.
Qed.

Lemma bind_ext {A B} (m : M A) (k1 k2 : A → M B) :
  (∀ a, k1 a = k2 a) → bind m k1 = bind m k2.
Proof.
  intros Hk. unfold bind. apply list_bind_ext; [|done].
  intros [a c|]; [|done]. by rewrite Hk.
Qed.

Lemma for_range_from_ext {A St} (body1 body2 : nat → A → St → M St) :
  (∀ i x st, body1 i x st = body2 i x st) →
  ∀ (s : list A) (off : nat) (st : St),
    for_range_from off s body1 st = for_range_from off s body2 st.
Proof.
  intros Hbody. induction s as [|x s IH]; intros off st; [done|].
  cbn [for_range_from]. rewrite Hbody. apply bind_ext. intros st'. apply IH.
Qed.

Lemma for_range_from_fmap {A B St} (f : A → B) (body : nat → B → St → M St) :
  ∀ (s : list A) (off : nat) (st : St),
    for_range_from off (f <$> s) body st = for_range_from off s (λ i x, body i (f x)) st.
Proof.
  induction s as [|x s IH]; intros off st; [done|].
  rewrite fmap_cons. cbn [for_range_from]. apply bind_ext. intros st'. apply IH.
Qed.

End GoFacts.

(* ===================================================================== *)
(** * Properties of the validation *)
(* ===================================================================== *)

Module properties.
Import field gatewayv1b1 Go GoFacts validation.

Section Properties.
Variable ToLower : string → string.
Variable CanonicalHeaderKey : string → string.
Variable ValidateParentRefs : list ParentReference.t → Path → ErrorList.

Local Abbreviation singleActionStep := (validation.singleActionStep ToLower).
Local Abbreviation validateHTTPHeaderModifier := (validation.validateHTTPHeaderModifier ToLower).
Local Abbreviation validateHTTPHeaderMatches :=
  (validation.validateHTTPHeaderMatches ToLower CanonicalHeaderKey).
Local Abbreviation validateHTTPRouteFilters := (validation.validateHTTPRouteFilters ToLower).
Local Abbreviation ruleBody := (validation.ruleBody ToLower CanonicalHeaderKey).
Local Abbreviation ValidateHTTPRouteSpec :=
  (validation.ValidateHTTPRouteSpec ToLower CanonicalHeaderKey ValidateParentRefs).
Local Abbreviation ValidateHTTPRoute :=
  (validation.ValidateHTTPRoute ToLower CanonicalHeaderKey ValidateParentRefs).
Local Abbreviation key := (validation.key ToLower).
Local Abbreviation conflicts := (validation.conflicts ToLower).
Local Abbreviation error_key := (validation.error_key ToLower).
Local Abbreviation stepAction := (validation.stepAction ToLower).
Local Abbreviation headerModifierErrs := (validation.headerModifierErrs ToLower).
Local Abbreviation filterErrs := (validation.filterErrs ToLower).
Local Abbreviation routeFiltersErrs := (validation.routeFiltersErrs ToLower).
Local Abbreviation headerKeys := (validation.headerKeys ToLower).
Local Abbreviation matchRun := (validation.matchRun ToLower CanonicalHeaderKey).
Local Abbreviation backendRefsErrs := (validation.backendRefsErrs ToLower).
Local Abbreviation ruleRun := (validation.ruleRun ToLower CanonicalHeaderKey).
Local Abbreviation atMostOneDuplicate := (validation.atMostOneDuplicate ToLower).
Local Abbreviation headerMatchErr := (validation.headerMatchErr CanonicalHeaderKey).

(** ** Occurrence counts *)

Lemma occ_nil k : occ k [] = 0%nat.
Proof. done. Qed.

Lemma occ_app k l1 l2 : occ k (l1 ++ l2) = (occ k l1 + occ k l2)%nat.
Proof. unfold occ. by rewrite filter_app, length_app. Qed.

Lemma occ_cons k x l : occ k (x :: l) = ((if decide (k = x) then 1 else 0) + occ k l)%nat.
Proof. unfold occ. rewrite filter_cons. by case_decide. Qed.

Lemma occ_singleton k x : occ k [x] = if decide (k = x) then 1%nat else 0%nat.
Proof. rewrite occ_cons, occ_nil. case_decide; lia. Qed.

Lemma occ_pos k l : (0 < occ k l)%nat ↔ k ∈ l.
Proof.
  unfold occ. split.
  - destruct (filter (k =.) l) as [|x l'] eqn:E; simpl; [lia|]. intros _.
    assert (x ∈ filter (k =.) l) as Hx by (rewrite E; left).
    apply list_elem_of_filter in Hx as [-> ?]. done.
  - intros Hk.
    assert (k ∈ filter (k =.) l) as Hx by (by apply list_elem_of_filter).
    destruct (filter (k =.) l); [inv Hx|simpl; lia].
Qed.

(** ** [validateHTTPHeaderModifier] *)

Lemma index_lookup {A} (s : list A) i x : s !! i = Some x → index s i = ret x.
Proof. unfold index. by intros ->. Qed.

Lemma singleActionStep_pure sub name entry v st :
  entry = ret v →
  singleActionStep sub name entry st = ret (stepAction st (mkAction sub name v)).
Proof.
  intros ->. destruct st as [errs sa].
  unfold validation.singleActionStep, validation.stepAction, validation.key. simpl.
  destruct (sa !! ToLower name) as [[|]|]; by rewrite ?bind_ret_l.
Qed.

Lemma tracks_empty : tracks [] ∅.
Proof. intros k. by rewrite lookup_empty. Qed.

Lemma stepAction_conflicts acts :
  ∀ earlier errs sa,
    tracks earlier sa →
    (foldl stepAction (errs, sa) acts).1 = errs ++ conflicts earlier acts.
Proof.
  induction acts as [|a acts IH]; intros earlier errs sa Htr; simpl.
  { by rewrite app_nil_r. }
  unfold validation.stepAction at 2. simpl.
  assert (∀ b, (∀ n, occ (key a) earlier = n →
                 b = match n with O => true | S O => false | _ => false end) →
               tracks (earlier ++ [key a]) (<[key a := b]> sa)) as Hnext.
  { intros b Hb k. rewrite occ_app, occ_singleton.
    destruct (decide (k = key a)) as [->|Hne].
    - rewrite lookup_insert_eq. rewrite (Hb _ eq_refl).
      destruct (occ (key a) earlier) as [|[|n]]; simpl; try done.
      all: by replace (S (S n) + 1)%nat with (S (S (S n))) by lia.
    - rewrite lookup_insert_ne by done. rewrite Htr.
      by replace (occ k earlier + 0)%nat with (occ k earlier) by lia. }
  rewrite (Htr (key a)).
  destruct (occ (key a) earlier) as [|[|n]] eqn:Hocc.
  - rewrite IH with (earlier := earlier ++ [key a]).
    + by rewrite decide_False by lia.
    + apply Hnext. by intros n <-.
  - rewrite IH with (earlier := earlier ++ [key a]).
    + rewrite decide_True by lia. by rewrite <- (assoc_L (++)).
    + apply Hnext. by intros n <-.
  - rewrite IH with (earlier := earlier ++ [key a]).
    + by rewrite decide_False by lia.
    + apply Hnext. by intros m <-.
Qed.

Lemma validateHTTPHeaderModifier_conflicts filter path :
  validateHTTPHeaderModifier filter path = ret (conflicts [] (actions filter path)).
Proof.
  unfold validation.validateHTTPHeaderModifier, for_range.
  rewrite (for_range_from_pure
             (λ st h, stepAction st (mkAction (Child path "add") (HTTPHeader.Name h) (VHeader h)))).
  2:{ intros j x st Hj. simpl. apply singleActionStep_pure.
      by rewrite (index_lookup _ _ _ Hj), bind_ret_l. }
  rewrite bind_ret_l.
  rewrite (for_range_from_pure
             (λ st h, stepAction st (mkAction (Child path "set") (HTTPHeader.Name h) (VHeader h)))).
  2:{ intros j x st Hj. simpl. apply singleActionStep_pure.
      by rewrite (index_lookup _ _ _ Hj), bind_ret_l. }
  rewrite bind_ret_l.
  rewrite (for_range_from_pure
             (λ st n, stepAction st (mkAction (Child path "remove") n (VString n)))).
  2:{ intros j x st Hj. simpl. apply singleActionStep_pure.
      by rewrite (index_lookup _ _ _ Hj), bind_ret_l. }
  rewrite bind_ret_l. f_equal.
  pose proof (stepAction_conflicts (actions filter path) [] [] ∅ tracks_empty) as Hc.
  simpl in Hc. rewrite <- Hc.
  unfold actions. by rewrite !foldl_app, !foldl_fmap.
Qed.

Lemma actions_names_value filter path : Forall names_value (actions filter path).
Proof.
  unfold actions. rewrite !Forall_app, !Forall_fmap. repeat split.
  all: by apply Forall_true.
Qed.

Lemma conflicts_count k acts :
  Forall names_value acts →
  ∀ earlier,
    length (filter (λ e, error_key e = k) (conflicts earlier acts)) =
    if decide (occ k earlier ≤ 1 ∧ 2 ≤ occ k earlier + occ k (key <$> acts))%nat
    then 1%nat else 0%nat.
Proof.
  induction 1 as [|a acts Ha _ IH]; intros earlier.
  { simpl. rewrite occ_nil. rewrite decide_False by lia. done. }
  cbn [validation.conflicts].
  rewrite filter_app, length_app, IH, occ_app, occ_singleton, fmap_cons, occ_cons.
  assert (error_key (Invalid (act_sub a) (act_value a) msgHeaderAction) = key a) as Hk.
  { unfold validation.error_key, validation.key. simpl. by rewrite Ha. }
  destruct (decide (occ (key a) earlier = 1%nat)) as [H1|H1].
  - rewrite filter_cons, Hk. destruct (decide (k = key a)) as [->|Hne].
    + rewrite decide_True by done. simpl.
      rewrite decide_False by lia. rewrite decide_True by lia. done.
    + rewrite decide_False by done. simpl.
      repeat case_decide; lia.
  - simpl. destruct (decide (k = key a)) as [->|Hne]; repeat case_decide; lia.
Qed.

Lemma elem_of_conflicts e acts :
  ∀ earlier,
    e ∈ conflicts earlier acts ↔
    ∃ pre a post, acts = pre ++ a :: post ∧
                  occ (key a) (earlier ++ (key <$> pre)) = 1%nat ∧
                  e = Invalid (act_sub a) (act_value a) msgHeaderAction.
Proof.
  induction acts as [|a acts IH]; intros earlier; simpl.
  { split; [inv 1|]. intros (pre & b & post & Heq & _). by destruct pre. }
  rewrite elem_of_app, IH. split.
  - intros [He|(pre & b & post & -> & Hocc & ->)].
    + case_decide as H1; [|inv He]. apply list_elem_of_singleton in He as ->.
      exists [], a, acts. by rewrite app_nil_r.
    + exists (a :: pre), b, post. split; [done|]. split; [|done].
      rewrite <- (assoc_L (++)) in Hocc. exact Hocc.
  - intros (pre & b & post & Heq & Hocc & ->). destruct pre as [|a' pre].
    + simplify_eq/=. rewrite app_nil_r in Hocc. left.
      rewrite decide_True by done. by left.
    + simplify_eq/=. right. exists pre, b, post. split; [done|]. split; [|done].
      rewrite <- (assoc_L (++)). exact Hocc.
Qed.

(** ** [validateHTTPRouteFilters] *)

Lemma get_incr `{Countable K} (m : gmap K Z) (k k' : K) :
  get (incr m k) k' = get m k' + (if decide (k' = k) then 1 else 0).
Proof.
  unfold incr, get. case_decide as Hk.
  - subst. by rewrite lookup_insert_eq.
  - rewrite lookup_insert_ne by done. lia.
Qed.

Lemma get_foldl_incr (types : list string) :
  ∀ (counts : gmap string Z) t,
    get (foldl incr counts types) t = get counts t + Z.of_nat (occ t types).
Proof.
  induction types as [|x types IH]; intros counts t; simpl.
  { rewrite occ_nil. lia. }
  rewrite IH, get_incr, occ_cons. case_decide; lia.
Qed.

Lemma get_empty `{Countable K} (k : K) : get (∅ : gmap K Z) k = 0.
Proof. unfold get. by rewrite lookup_empty. Qed.

Lemma delegate_modifier {B} (errs : ErrorList) m p (k : ErrorList → M B) :
  (errs' <- match m with
            | Some m => e <- validateHTTPHeaderModifier m p ;; ret (errs ++ e)
            | None => ret errs
            end ;; k errs')
  = k (errs ++ headerModifierErrs m p).
Proof.
  destruct m as [m|]; cbn [validation.headerModifierErrs].
  - by rewrite validateHTTPHeaderModifier_conflicts, !bind_ret_l.
  - by rewrite bind_ret_l, app_nil_r.
Qed.

Lemma validateHTTPRouteFilters_loop path filters :
  ∀ off errs (counts : gmap string Z),
    for_range_from off filters
      (λ i filter '(errs, counts),
         let counts := incr counts (HTTPRouteFilter.Type' filter) in
         errs <- match HTTPRouteFilter.RequestHeaderModifier filter with
                 | Some m =>
                     e <- validateHTTPHeaderModifier m (Child (Index path i) "requestHeaderModifier") ;;
                     ret (errs ++ e)
                 | None => ret errs
                 end ;;
         errs <- match HTTPRouteFilter.ResponseHeaderModifier filter with
                 | Some m =>
                     e <- validateHTTPHeaderModifier m (Child (Index path i) "responseHeaderModifier") ;;
                     ret (errs ++ e)
                 | None => ret errs
                 end ;;
         ret (errs, counts))
      (errs, counts)
    = ret (errs ++ mjoin (imap (λ j, filterErrs path (off + j)) filters),
           foldl incr counts (HTTPRouteFilter.Type' <$> filters)).
Proof.
  induction filters as [|f filters IH]; intros off errs counts.
  { simpl. by rewrite app_nil_r. }
  cbn [for_range_from].
  rewrite !delegate_modifier, bind_ret_l, IH.
  rewrite imap_cons, fmap_cons. cbn [foldl mjoin list_join].
  rewrite Nat.add_0_r. unfold validation.filterErrs at 2.
  rewrite <- !(assoc_L (++)). do 6 f_equal.
  apply imap_ext. intros j x _. simpl. by rewrite Nat.add_succ_r.
Qed.

Lemma counted_pos (t : string) (types : list string) :
  (0 <? 0 + Z.of_nat (occ t types)) = bool_decide (t ∈ types).
Proof.
  case_bool_decide as Ht.
  - apply occ_pos in Ht. apply Z.ltb_lt. lia.
  - apply Z.ltb_ge. rewrite <- occ_pos in Ht. lia.
Qed.

Lemma validateHTTPRouteFilters_errs filters matches path :
  validateHTTPRouteFilters filters matches path = ret (routeFiltersErrs filters path).
Proof.
  unfold validation.validateHTTPRouteFilters, for_range.
  rewrite validateHTTPRouteFilters_loop, bind_ret_l.
  rewrite !get_foldl_incr, !get_empty, !counted_pos.
  unfold validation.routeFiltersErrs, kindConflict, hasType. cbn [Nat.add].
  repeat case_bool_decide; case_decide; simpl; rewrite ?app_nil_r; try done; tauto.
Qed.

(** ** [validateHTTPHeaderMatches] *)

Lemma lookup_foldl_incr (keys : list string) :
  ∀ (counts : gmap string Z) k,
    foldl incr counts keys !! k =
    if decide (occ k keys = 0%nat) then counts !! k
    else Some (get counts k + Z.of_nat (occ k keys)).
Proof.
  induction keys as [|x keys IH]; intros counts k.
  { by rewrite decide_True by done. }
  cbn [foldl]. rewrite IH, occ_cons, get_incr. unfold incr.
  destruct (decide (k = x)) as [->|Hne].
  - rewrite lookup_insert_eq. repeat case_decide; try lia. all: f_equal; lia.
  - rewrite lookup_insert_ne by done. repeat case_decide; try lia; try done.
    all: f_equal; lia.
Qed.

Lemma lookup_counts keys k c :
  foldl incr (∅ : gmap string Z) keys !! k = Some c ↔
  (0 < occ k keys)%nat ∧ c = Z.of_nat (occ k keys).
Proof.
  rewrite lookup_foldl_incr, get_empty, lookup_empty.
  case_decide as Hocc; split.
  - done.
  - intros [Hpos _]. lia.
  - intros [= <-]. split; lia.
  - by intros [_ ->].
Qed.

Lemma report_duplicates path (entries : list (string * Z)) :
  ∀ errs : ErrorList,
    foldl (λ errs '(name, count),
             if 1 <? count then errs ++ [headerMatchErr path name] else errs)
          errs entries
    = errs ++ (headerMatchErr path <$> (filter (λ nc, 1 < nc.2) entries).*1).
Proof.
  induction entries as [|[name count] entries IH]; intros errs; cbn [foldl].
  { by rewrite app_nil_r. }
  rewrite IH, filter_cons. simpl.
  destruct (1 <? count) eqn:E.
  - apply Z.ltb_lt in E. rewrite decide_True by done.
    by rewrite <- (assoc_L (++)).
  - apply Z.ltb_ge in E. rewrite decide_False by lia. done.
Qed.

Lemma validateHTTPHeaderMatches_outcomes matches path o :
  o ∈ validateHTTPHeaderMatches matches path ↔
  ∃ entries,
    entries ≡ₚ map_to_list (foldl incr (∅ : gmap string Z) (headerKeys matches)) ∧
    o = Returns (headerMatchErr path <$> (filter (λ nc, 1 < nc.2) entries).*1) [].
Proof.
  unfold validation.validateHTTPHeaderMatches, for_range.
  rewrite (for_range_from_pure (λ counts m, incr counts (ToLower (HTTPHeaderMatch.Name m))))
    by done.
  rewrite bind_ret_l. unfold range_map. rewrite elem_of_bind_choose.
  assert (∀ entries : list (string * Z),
            for_range_from 0 entries
              (λ _ '(name, count) errs,
                 if 1 <? count
                 then ret (errs ++ [Invalid path (VString (CanonicalHeaderKey name)) msgHeaderMatch])
                 else ret errs) []
            = ret (headerMatchErr path <$> (filter (λ nc, 1 < nc.2) entries).*1)) as Hloop.
  { intros entries.
    rewrite (for_range_from_pure
               (λ errs '(name, count),
                  if 1 <? count then errs ++ [headerMatchErr path name] else errs)).
    - by rewrite report_duplicates.
    - intros j [name count] errs _. simpl. by destruct (1 <? count). }
  unfold validation.headerKeys. rewrite foldl_fmap.
  split.
  - intros (entries & Hperm & Ho). rewrite Hloop in Ho. apply elem_of_ret in Ho.
    exists entries. split; [|done]. symmetry. by apply permutations_Permutation.
  - intros (entries & Hperm & ->). exists entries. split.
    + apply permutations_Permutation. by symmetry.
    + rewrite Hloop. by apply elem_of_ret.
Qed.

Lemma duplicated_entries (keys : list string) (entries : list (string * Z)) :
  entries ≡ₚ map_to_list (foldl incr (∅ : gmap string Z) keys) →
  let names := (filter (λ nc, 1 < nc.2) entries).*1 in
  NoDup names ∧ ∀ k, k ∈ names ↔ (2 ≤ occ k keys)%nat.
Proof.
  intros Hperm names. split.
  - apply (sublist_NoDup _ (entries.*1)).
    + rewrite Hperm. apply NoDup_fst_map_to_list.
    + apply fmap_sublist, sublist_filter.
  - intros k. unfold names. rewrite list_elem_of_fmap. split.
    + intros ([k' c] & -> & Hin). apply list_elem_of_filter in Hin as [Hc Hin].
      rewrite Hperm in Hin. apply elem_of_map_to_list, lookup_counts in Hin.
      simpl in *. lia.
    + intros Hocc. exists (k, Z.of_nat (occ k keys)). split; [done|].
      apply list_elem_of_filter. split; [simpl; lia|].
      rewrite Hperm. apply elem_of_map_to_list, lookup_counts. lia.
Qed.

Lemma validateHTTPHeaderMatches_returns matches path o :
  o ∈ validateHTTPHeaderMatches matches path →
  ∃ names,
    NoDup names ∧
    (∀ k, k ∈ names ↔ (2 ≤ occ k (headerKeys matches))%nat) ∧
    o = Returns (headerMatchErr path <$> names) [].
Proof.
  intros (entries & Hperm & ->)%validateHTTPHeaderMatches_outcomes.
  destruct (duplicated_entries _ _ Hperm) as [Hnd Hin]. eauto.
Qed.

Lemma validateHTTPHeaderMatches_runs matches path :
  ∃ errs, Returns errs [] ∈ validateHTTPHeaderMatches matches path.
Proof.
  eexists. apply validateHTTPHeaderMatches_outcomes. eexists. split; [reflexivity|done].
Qed.

(** ** Loops that append the errors of one run per element *)

Lemma for_range_from_runs {A} (R : nat → A → ErrorList → Prop)
    (body : nat → A → ErrorList → M ErrorList) :
  (∀ i x st o, o ∈ body i x st ↔ ∃ seg, R i x seg ∧ o = Returns (st ++ seg) []) →
  ∀ (s : list A) (off : nat) (st : ErrorList) o,
    o ∈ for_range_from off s body st ↔
    ∃ e, runs_from R off s e ∧ o = Returns (st ++ e) [].
Proof.
  intros Hbody. induction s as [|x s IH]; intros off st o.
  { simpl. rewrite elem_of_ret. split.
    - intros ->. exists []. by rewrite app_nil_r.
    - intros (e & -> & ->). by rewrite app_nil_r. }
  cbn [for_range_from runs_from].
  rewrite (elem_of_bind_returns _ _ (λ a, ∃ seg, R off x seg ∧ a = st ++ seg)).
  2:{ intros o'. rewrite Hbody. split.
      - intros (seg & Hseg & ->). exists (st ++ seg). split; [by exists seg|done].
      - intros (a & (seg & Hseg & ->) & ->). by exists seg. }
  split.
  - intros (a & (seg & Hseg & ->) & Ho). apply IH in Ho as (e & He & ->).
    exists (seg ++ e). split; [by exists seg, e|]. by rewrite (assoc_L (++)).
  - intros (e & (e1 & e2 & H1 & H2 & ->) & ->).
    exists (st ++ e1). split; [by exists e1|].
    apply IH. exists e2. split; [done|]. by rewrite (assoc_L (++)).
Qed.


Lemma runs_from_exists {A} (R : nat → A → ErrorList → Prop) (l : list A) :
  (∀ i x, ∃ e, R i x e) → ∀ i, ∃ e, runs_from R i l e.
Proof.
  intros HR. induction l as [|x l IH]; intros i; simpl; [by exists []|].
  destruct (HR i x) as [e1 H1]. destruct (IH (S i)) as [e2 H2].
  by exists (e1 ++ e2), e1, e2.
Qed.

Lemma runs_from_Permutation {A} (R : nat → A → ErrorList → Prop) (l : list A) :
  (∀ i x e1 e2, R i x e1 → R i x e2 → e1 ≡ₚ e2) →
  ∀ i e1 e2, runs_from R i l e1 → runs_from R i l e2 → e1 ≡ₚ e2.
Proof.
  intros HR. induction l as [|x l IH]; intros i e1 e2; simpl.
  { by intros -> ->. }
  intros (a1 & b1 & Ha1 & Hb1 & ->) (a2 & b2 & Ha2 & Hb2 & ->).
  by rewrite (HR _ _ _ _ Ha1 Ha2), (IH _ _ _ Hb1 Hb2).
Qed.

(** ** [ValidateHTTPRouteSpec] *)

Lemma matches_body_outcomes path i j m (errs : ErrorList) o :
  o ∈ (if 0 <? len (HTTPRouteMatch.Headers m)
       then e <- validateHTTPHeaderMatches (HTTPRouteMatch.Headers m)
                   (Child (Index (Child (Index (Child path "rules") i) "matches") j) "headers") ;;
            ret (errs ++ e)
       else ret errs) ↔
  ∃ seg, matchRun path i j m seg ∧ o = Returns (errs ++ seg) [].
Proof.
  unfold validation.matchRun, headersPath, rulePath.
  destruct (0 <? len (HTTPRouteMatch.Headers m)).
  - rewrite (elem_of_bind_returns _ _
               (λ e, Returns e [] ∈ validateHTTPHeaderMatches (HTTPRouteMatch.Headers m)
                       (Child (Index (Child (Index (Child path "rules") i) "matches") j) "headers"))).
    + by setoid_rewrite elem_of_ret.
    + intros o'. split.
      * intros Ho'. destruct (validateHTTPHeaderMatches_returns _ _ _ Ho') as (names & _ & _ & ->).
        eauto.
      * by intros (e & He & ->).
  - rewrite elem_of_ret. split.
    + intros ->. exists []. by rewrite app_nil_r.
    + intros (seg & -> & ->). by rewrite app_nil_r.
Qed.

Lemma ruleBody_outcomes path i rule (errs : ErrorList) o :
  o ∈ ruleBody path i rule errs ↔
  ∃ e, ruleRun path i rule e ∧ o = Returns (errs ++ e) [].
Proof.
  unfold validation.ruleBody, for_range.
  rewrite validateHTTPRouteFilters_errs, bind_ret_l.
  rewrite (for_range_from_append
             (λ j b, routeFiltersErrs (HTTPBackendRef.Filters b) (backendRefPath path i j))).
  2:{ intros j b st. by rewrite validateHTTPRouteFilters_errs, bind_ret_l. }
  rewrite bind_ret_l.
  rewrite (for_range_from_runs (matchRun path i)) by apply matches_body_outcomes.
  unfold validation.ruleRun, validation.backendRefsErrs, rulePath. split.
  - intros (em & Hem & ->). eexists. split; [by exists em|].
    by rewrite <- !(assoc_L (++)).
  - intros (e & (em & Hem & ->) & ->). exists em. split; [done|].
    by rewrite <- !(assoc_L (++)).
Qed.

Lemma ValidateHTTPRouteSpec_outcomes spec path o :
  o ∈ ValidateHTTPRouteSpec spec path ↔
  ∃ e, runs_from (ruleRun path) 0 (HTTPRouteSpec.Rules spec) e ∧
       o = Returns (e ++ ValidateParentRefs (HTTPRouteSpec.ParentRefs spec) (Child path "spec"))
             [CallValidateParentRefs (HTTPRouteSpec.ParentRefs spec) (Child path "spec")].
Proof.
  unfold validation.ValidateHTTPRouteSpec, for_range.
  rewrite (elem_of_bind_returns _ _ (runs_from (ruleRun path) 0 (HTTPRouteSpec.Rules spec))).
  2:{ intros o'. by rewrite (for_range_from_runs (ruleRun path)) by apply ruleBody_outcomes. }
  setoid_rewrite bind_external. unfold ret. simpl.
  by setoid_rewrite list_elem_of_singleton.
Qed.

Lemma ruleBody_replaceQueryParams path i (q : HTTPRouteMatch.t → list HTTPQueryParamMatch.t)
    rule (errs : ErrorList) :
  ruleBody path i
    {| HTTPRouteRule.Matches :=
         (λ m, {| HTTPRouteMatch.Headers := HTTPRouteMatch.Headers m;
                  HTTPRouteMatch.QueryParams := q m |}) <$> HTTPRouteRule.Matches rule;
       HTTPRouteRule.Filters := HTTPRouteRule.Filters rule;
       HTTPRouteRule.BackendRefs := HTTPRouteRule.BackendRefs rule |} errs
  = ruleBody path i rule errs.
Proof.
  unfold validation.ruleBody, for_range. cbn [HTTPRouteRule.Matches HTTPRouteRule.Filters
    HTTPRouteRule.BackendRefs].
  apply bind_ext. intros e. apply bind_ext. intros errs'.
  by rewrite for_range_from_fmap.
Qed.

Lemma ValidateHTTPRouteSpec_replaceQueryParams q spec path :
  ValidateHTTPRouteSpec (replaceQueryParams q spec) path = ValidateHTTPRouteSpec spec path.
Proof.
  unfold validation.ValidateHTTPRouteSpec, replaceQueryParams, for_range.
  cbn [HTTPRouteSpec.Rules HTTPRouteSpec.ParentRefs]. f_equal.
  rewrite for_range_from_fmap. apply for_range_from_ext.
  intros i rule errs. apply ruleBody_replaceQueryParams.
Qed.

(** ** Runs of the same code on the same input *)

Lemma headerMatches_runs_Permutation matches path e1 e2 :
  Returns e1 [] ∈ validateHTTPHeaderMatches matches path →
  Returns e2 [] ∈ validateHTTPHeaderMatches matches path →
  e1 ≡ₚ e2.
Proof.
  intros (n1 & Hnd1 & Hin1 & Heq1)%validateHTTPHeaderMatches_returns
         (n2 & Hnd2 & Hin2 & Heq2)%validateHTTPHeaderMatches_returns.
  simplify_eq. apply fmap_Permutation, NoDup_Permutation; [done..|].
  intros k. by rewrite Hin1, Hin2.
Qed.

Lemma NoDup_all_equal {A} (l1 l2 : list A) :
  NoDup l1 → NoDup l2 → (∀ x, x ∈ l1 ↔ x ∈ l2) →
  (∀ x y, x ∈ l1 → y ∈ l1 → x = y) →
  l1 = l2.
Proof.
  intros Hnd1 Hnd2 Hin Heq.
  destruct l1 as [|x [|y l1]].
  - destruct l2 as [|z l2]; [done|]. exfalso.
    assert (z ∈ ([] : list A)) as Hz by (apply Hin; left). inv Hz.
  - destruct l2 as [|z [|w l2]].
    + exfalso. assert (x ∈ ([] : list A)) as Hx by (apply Hin; left). inv Hx.
    + f_equal. assert (z ∈ [x]) as Hz by (apply Hin; left).
      by apply list_elem_of_singleton in Hz.
    + exfalso. assert (z ∈ [x]) as Hz by (apply Hin; left).
      assert (w ∈ [x]) as Hw by (apply Hin; right; left).
      apply list_elem_of_singleton in Hz, Hw. subst.
      apply NoDup_cons in Hnd2 as [Hnot _]. apply Hnot. left.
  - exfalso. assert (x = y) as -> by (apply Heq; [left|right; left]).
    apply NoDup_cons in Hnd1 as [Hnot _]. apply Hnot. left.
Qed.

Lemma headerMatches_runs_eq m path e1 e2 :
  atMostOneDuplicate m →
  Returns e1 [] ∈ validateHTTPHeaderMatches (HTTPRouteMatch.Headers m) path →
  Returns e2 [] ∈ validateHTTPHeaderMatches (HTTPRouteMatch.Headers m) path →
  e1 = e2.
Proof.
  intros Hone (n1 & Hnd1 & Hin1 & Heq1)%validateHTTPHeaderMatches_returns
              (n2 & Hnd2 & Hin2 & Heq2)%validateHTTPHeaderMatches_returns.
  simplify_eq. f_equal. apply NoDup_all_equal; [done..| |].
  - intros k. by rewrite Hin1, Hin2.
  - intros x y Hx%Hin1 Hy%Hin1. by apply Hone.
Qed.

Lemma runs_from_eq {A} (R : nat → A → ErrorList → Prop) (l : list A) :
  (∀ i x e1 e2, x ∈ l → R i x e1 → R i x e2 → e1 = e2) →
  ∀ i e1 e2, runs_from R i l e1 → runs_from R i l e2 → e1 = e2.
Proof.
  induction l as [|x l IH]; intros HR i e1 e2; simpl.
  { by intros -> ->. }
  intros (a1 & b1 & Ha1 & Hb1 & ->) (a2 & b2 & Ha2 & Hb2 & ->).
  f_equal.
  - eapply HR; [left|done..].
  - eapply IH; [|done..]. intros j y c1 c2 Hy. apply HR. by right.
Qed.

Lemma matchRun_Permutation path i j m e1 e2 :
  matchRun path i j m e1 → matchRun path i j m e2 → e1 ≡ₚ e2.
Proof.
  unfold validation.matchRun. destruct (0 <? _).
  - apply headerMatches_runs_Permutation.
  - by intros -> ->.
Qed.

Lemma matchRun_eq path i j m e1 e2 :
  atMostOneDuplicate m → matchRun path i j m e1 → matchRun path i j m e2 → e1 = e2.
Proof.
  intros Hone. unfold validation.matchRun. destruct (0 <? _).
  - by apply headerMatches_runs_eq.
  - by intros -> ->.
Qed.

Lemma ruleRun_Permutation path i rule e1 e2 :
  ruleRun path i rule e1 → ruleRun path i rule e2 → e1 ≡ₚ e2.
Proof.
  intros (m1 & H1 & ->) (m2 & H2 & ->). do 2 f_equiv.
  eapply runs_from_Permutation; [|done..]. apply matchRun_Permutation.
Qed.

Lemma ruleRun_eq path i rule e1 e2 :
  (∀ m, m ∈ HTTPRouteRule.Matches rule → atMostOneDuplicate m) →
  ruleRun path i rule e1 → ruleRun path i rule e2 → e1 = e2.
Proof.
  intros Hone (m1 & H1 & ->) (m2 & H2 & ->). do 2 f_equal.
  eapply runs_from_eq; [|done..]. intros j m c1 c2 Hm. by apply matchRun_eq, Hone.
Qed.

Lemma ruleRun_exists path i rule : ∃ e, ruleRun path i rule e.
Proof.
  destruct (runs_from_exists (matchRun path i) (HTTPRouteRule.Matches rule)) with (i := 0%nat)
    as [em Hem].
  - intros j m. unfold validation.matchRun. destruct (0 <? _); [|by exists []].
    apply validateHTTPHeaderMatches_runs.
  - eexists. by exists em.
Qed.

Lemma ruleBody_runs path i rule (errs : ErrorList) :
  ∃ errs', Returns errs' [] ∈ ruleBody path i rule errs.
Proof.
  destruct (ruleRun_exists path i rule) as [e He].
  eexists. apply ruleBody_outcomes. by exists e.
Qed.

Lemma ValidateHTTPRouteSpec_runs spec path :
  ∃ errs calls, Returns errs calls ∈ ValidateHTTPRouteSpec spec path.
Proof.
  destruct (runs_from_exists (ruleRun path) (HTTPRouteSpec.Rules spec)) with (i := 0%nat)
    as [e He]; [apply ruleRun_exists|].
  do 2 eexists. apply ValidateHTTPRouteSpec_outcomes. by exists e.
Qed.

(** ** Kinds of errors *)

Lemma filter_none {A} (P : A → Prop) `{∀ x, Decision (P x)} (l : list A) :
  (∀ x, x ∈ l → ¬ P x) → filter P l = [].
Proof.
  induction l as [|x l IH]; intros Hl; [done|].
  rewrite filter_cons, decide_False by (apply Hl; left).
  apply IH. intros y Hy. apply Hl. by right.
Qed.

Lemma conflicts_Detail earlier acts e :
  e ∈ conflicts earlier acts → Detail e = msgHeaderAction.
Proof. by intros (pre & a & post & _ & _ & ->)%elem_of_conflicts. Qed.

Lemma filterErrs_Detail path i f e :
  e ∈ filterErrs path i f → Detail e = msgHeaderAction.
Proof.
  unfold validation.filterErrs, validation.headerModifierErrs.
  rewrite elem_of_app. intros [He|He].
  - destruct (HTTPRouteFilter.RequestHeaderModifier f); [|inv He].
    by eapply conflicts_Detail.
  - destruct (HTTPRouteFilter.ResponseHeaderModifier f); [|inv He].
    by eapply conflicts_Detail.
Qed.

Lemma filtersErrs_Detail path filters e :
  e ∈ mjoin (imap (filterErrs path) filters) → Detail e = msgHeaderAction.
Proof.
  intros (l & He & Hl)%list_elem_of_join.
  apply elem_of_lookup_imap in Hl as (i & f & -> & _).
  by eapply filterErrs_Detail.
Qed.

Lemma join_fmap_join_imap {A B C} (h : B → list C) (filters : list A) :
  ∀ (d : nat → A → list B) (r : nat → A → list C),
    (∀ j f, mjoin (h <$> d j f) = r j f) →
    mjoin (h <$> mjoin (imap d filters)) = mjoin (imap r filters).
Proof.
  induction filters as [|f filters IH]; intros d r Hdr; [done|].
  rewrite !imap_cons. cbn [mjoin list_join].
  rewrite fmap_app, join_app, Hdr. f_equal.
  apply IH. intros j f'. apply Hdr.
Qed.

Lemma delegations_results path filters :
  mjoin ((λ mp, conflicts [] (actions mp.1 mp.2)) <$> mjoin (imap (delegations path) filters))
  = mjoin (imap (filterErrs path) filters).
Proof.
  apply join_fmap_join_imap. intros j f.
  unfold delegations, validation.filterErrs, validation.headerModifierErrs.
  destruct (HTTPRouteFilter.RequestHeaderModifier f),
           (HTTPRouteFilter.ResponseHeaderModifier f); simpl; by rewrite ?app_nil_r.
Qed.

Lemma msgHeaderAction_ne : msgHeaderAction ≠ msgFilterConflict.
Proof. done. Qed.

Lemma msgHeaderMatch_ne : msgHeaderMatch ≠ msgFilterConflict.
Proof. done. Qed.

Lemma filter_routeFiltersErrs_at filters p q :
  filter (λ e, Detail e = msgFilterConflict ∧ Field e = q) (routeFiltersErrs filters p)
  = if decide (Child p "filters" = q) then kindConflict filters p else [].
Proof.
  unfold validation.routeFiltersErrs. rewrite filter_app, filter_none.
  2:{ intros e He [Hd _]. rewrite (filtersErrs_Detail _ _ _ He) in Hd.
      by apply msgHeaderAction_ne. }
  unfold kindConflict. simpl. destruct (decide (hasType _ _ ∧ hasType _ _)).
  - rewrite filter_cons, filter_nil. simpl.
    destruct (decide (Child p "filters" = q)) as [Hq|Hq].
    + by rewrite decide_True.
    + rewrite decide_False; [done|]. by intros [_ ?].
  - by case_decide.
Qed.

Lemma backendRef_filters_ne path i j :
  Child (backendRefPath path i j) "filters" ≠ Child (rulePath path i) "filters".
Proof.
  unfold backendRefPath, Child, Index. rewrite <- !(assoc_L (++)).
  intros Heq. by apply app_inv_head in Heq.
Qed.

Lemma filter_backendRefsErrs_at path i rule :
  filter (λ e, Detail e = msgFilterConflict ∧ Field e = Child (rulePath path i) "filters")
         (backendRefsErrs path i rule) = [].
Proof.
  apply filter_none. intros e He HP.
  apply list_elem_of_join in He as (l & He & Hl).
  apply elem_of_lookup_imap in Hl as (j & b & -> & _).
  assert (e ∈ filter (λ e, Detail e = msgFilterConflict ∧
                           Field e = Child (rulePath path i) "filters")
                     (routeFiltersErrs (HTTPBackendRef.Filters b) (backendRefPath path i j)))
    as Hin by (by apply list_elem_of_filter).
  rewrite filter_routeFiltersErrs_at, decide_False in Hin by apply backendRef_filters_ne.
  inv Hin.
Qed.

Lemma runs_from_Forall {A} (R : nat → A → ErrorList → Prop) (Q : Error → Prop) (l : list A) :
  (∀ i x seg, R i x seg → Forall Q seg) →
  ∀ i e, runs_from R i l e → Forall Q e.
Proof.
  intros HR. induction l as [|x l IH]; intros i e; simpl.
  { by intros ->. }
  intros (e1 & e2 & H1 & H2 & ->). apply Forall_app. split; [by eapply HR|by eapply IH].
Qed.

Lemma matchRun_Detail path i j m seg :
  matchRun path i j m seg → Forall (λ e, Detail e = msgHeaderMatch) seg.
Proof.
  unfold validation.matchRun. destruct (0 <? _).
  - intros (names & _ & _ & Heq)%validateHTTPHeaderMatches_returns. simplify_eq.
    apply Forall_fmap, Forall_true. done.
  - by intros ->.
Qed.

(* ===================================================================== *)
(** ** The properties the specification states *)
(* ===================================================================== *)

(** C2. [validateHTTPHeaderModifier] visits the [Add], [Set] and [Remove]
    entries in that order with names folded by [ToLower], and returns
    (without panicking) exactly one error per folded header name that two or
    more entries name, however many entries repeat it and whichever lists
    they are in; no error for the other names. Each error is the one for the
    second entry of its header: it sits at the path of the list holding that
    entry ([add], [set] or [remove]), reports that entry and carries the
    message of a conflicting header action. *)
Theorem C2_header_modifier_one_error_per_repeated_header (modifier : HTTPHeaderFilter.t) path :
  ∃ errs,
    validateHTTPHeaderModifier modifier path = ret errs ∧
    (∀ k, length (filter (λ e, error_key e = k) errs) =
          if decide (2 ≤ occ k (key <$> actions modifier path))%nat then 1%nat else 0%nat) ∧
    (∀ e, e ∈ errs ↔
          ∃ pre a post,
            actions modifier path = pre ++ a :: post ∧
            occ (key a) (key <$> pre) = 1%nat ∧
            e = Invalid (act_sub a) (act_value a) msgHeaderAction).
Proof.
  exists (conflicts [] (actions modifier path)). split; [|split].
  - apply validateHTTPHeaderModifier_conflicts.
  - intros k. rewrite (conflicts_count k _ (actions_names_value modifier path)).
    rewrite occ_nil. repeat case_decide; lia.
  - intros e. by rewrite elem_of_conflicts.
Qed.

(** C3. [validateHTTPRouteFilters] returns exactly one error saying that
    redirect and rewrite filters exclude each other, at [<path>.filters],
    when the filter list has at least one filter of type RequestRedirect and
    at least one of type URLRewrite, however many there are of each; it
    returns no such error when either type is absent. For a rule, every run
    of the loop body reports exactly one such error at the filter list of
    the rule, [<path>.rules[i].filters], when the filters of the rule hold
    both types, and none there otherwise. *)
Theorem C3_one_error_for_redirect_with_rewrite filters matches path :
  (∃ errs,
     validateHTTPRouteFilters filters matches path = ret errs ∧
     filter (λ e, Detail e = msgFilterConflict) errs =
       if decide (hasType HTTPRouteFilterRequestRedirect filters ∧
                  hasType HTTPRouteFilterURLRewrite filters)
       then [Invalid (Child path "filters") (VFilterType HTTPRouteFilterRequestRedirect)
               msgFilterConflict]
       else []) ∧
  (∀ i rule,
     (∃ errs, Returns errs [] ∈ ruleBody path i rule []) ∧
     ∀ o,
     o ∈ ruleBody path i rule [] →
     ∃ errs,
       o = Returns errs [] ∧
       filter (λ e, Detail e = msgFilterConflict ∧
                    Field e = Child (Index (Child path "rules") i) "filters") errs =
         if decide (hasType HTTPRouteFilterRequestRedirect (HTTPRouteRule.Filters rule) ∧
                    hasType HTTPRouteFilterURLRewrite (HTTPRouteRule.Filters rule))
         then [Invalid (Child (Index (Child path "rules") i) "filters")
                 (VFilterType HTTPRouteFilterRequestRedirect) msgFilterConflict]
         else []).
Proof.
  split.
  - exists (routeFiltersErrs filters path). split.
    { apply validateHTTPRouteFilters_errs. }
    unfold validation.routeFiltersErrs. rewrite filter_app, filter_none.
    2:{ intros e He. by rewrite (filtersErrs_Detail _ _ _ He). }
    unfold kindConflict. by case_decide.
  - intros i rule. split; [apply ruleBody_runs|].
    intros o (e & (em & Hem & ->) & ->)%ruleBody_outcomes.
    eexists. split; [done|]. simpl.
    change (Index (Child path "rules") i) with (rulePath path i).
    rewrite !filter_app, filter_routeFiltersErrs_at, filter_backendRefsErrs_at.
    rewrite decide_True by done.
    rewrite (filter_none _ em).
    2:{ intros e He [Hd _].
        pose proof (runs_from_Forall _ _ _ (matchRun_Detail path i) _ _ Hem) as Hall.
        rewrite Forall_forall in Hall. rewrite (Hall _ He) in Hd.
        by apply msgHeaderMatch_ne. }
    by rewrite !app_nil_r.
Qed.

(** C4. [validateHTTPHeaderMatches] has a run on every input, and every
    run returns, without panicking, one error for each folded header name
    that two or more of the matches carry and no other error: the errors
    are those of a duplicate-free list of names that holds exactly the names
    occurring more than once. Each error sits at the path given (the headers
    field of the match block, no entry index), reports the canonical form of
    the folded name and says that the same header cannot be matched more
    than once in the same rule. *)
Theorem C4_header_matches_one_error_per_duplicated_name matches path :
  (∃ errs, Returns errs [] ∈ validateHTTPHeaderMatches matches path) ∧
  ∀ o,
    o ∈ validateHTTPHeaderMatches matches path →
    ∃ names,
      NoDup names ∧
      (∀ k, k ∈ names ↔ (2 ≤ occ k (headerKeys matches))%nat) ∧
      o = Returns ((λ k, Invalid path (VString (CanonicalHeaderKey k))
                           "cannot match the same header multiple times in the same rule")
                     <$> names) [].
Proof.
  split; [apply validateHTTPHeaderMatches_runs|].
  intros o. apply validateHTTPHeaderMatches_returns.
Qed.

(** C5 (amended). [validateHTTPRouteFilters] hands to
    [validateHTTPHeaderModifier] exactly the header-modifier payloads that
    are present, whatever the [Type] of the filter that carries them: for
    filter number [i], the [RequestHeaderModifier] payload at
    [<path>[i].requestHeaderModifier] and then the [ResponseHeaderModifier]
    payload at [<path>[i].responseHeaderModifier]. Its result is the
    results of these calls, in order, followed by the error of the
    redirect-with-rewrite check; a filter with neither payload adds
    nothing. *)
Theorem C5_header_modifiers_checked_where_present filters matches path :
  ∃ results,
    Forall2 (λ mp e, validateHTTPHeaderModifier mp.1 mp.2 = ret e)
            (mjoin (imap (delegations path) filters)) results ∧
    validateHTTPRouteFilters filters matches path
    = ret (mjoin results ++ kindConflict filters path).
Proof.
  exists ((λ mp, conflicts [] (actions mp.1 mp.2)) <$> mjoin (imap (delegations path) filters)).
  split.
  - apply Forall2_fmap_r, Forall_Forall2_diag, Forall_forall.
    intros [m p] _. apply validateHTTPHeaderModifier_conflicts.
  - rewrite validateHTTPRouteFilters_errs. unfold validation.routeFiltersErrs.
    by rewrite delegations_results.
Qed.

(** ** The errors of a run, one by one *)

Local Abbreviation repeatedAction := (reports.repeatedAction ToLower).
Local Abbreviation filterViolation := (reports.filterViolation ToLower).
Local Abbreviation headerViolation := (reports.headerViolation ToLower CanonicalHeaderKey).
Local Abbreviation ruleViolation := (reports.ruleViolation ToLower CanonicalHeaderKey).
Local Abbreviation violation := (reports.violation ToLower CanonicalHeaderKey).
Local Abbreviation sameButName := reports.sameButName.

Lemma elem_of_headerModifierErrs m path e :
  e ∈ headerModifierErrs m path ↔ ∃ modifier, m = Some modifier ∧ repeatedAction modifier path e.
Proof.
  destruct m as [modifier|]; simpl.
  - rewrite elem_of_conflicts. unfold reports.repeatedAction. simpl. split.
    + intros H. by exists modifier.
    + by intros (? & [= <-] & H).
  - split; [by intros ?%elem_of_nil|by intros (? & ? & _)].
Qed.

Lemma elem_of_join_imap {A} (f : nat → A → ErrorList) (l : list A) e :
  e ∈ mjoin (imap f l) ↔ ∃ k x, l !! k = Some x ∧ e ∈ f k x.
Proof.
  rewrite list_elem_of_join. split.
  - intros (seg & He & (k & x & -> & Hk)%elem_of_lookup_imap). eauto.
  - intros (k & x & Hk & He). exists (f k x). split; [done|].
    apply elem_of_lookup_imap. eauto.
Qed.

Lemma elem_of_routeFiltersErrs filters path e :
  e ∈ routeFiltersErrs filters path ↔ filterViolation filters path e.
Proof.
  unfold validation.routeFiltersErrs, reports.filterViolation.
  rewrite elem_of_app, elem_of_join_imap. split.
  - intros [(k & f & Hk & He)|He].
    + right. exists k, f. unfold validation.filterErrs in He.
      apply elem_of_app in He as [He|He];
        apply elem_of_headerModifierErrs in He as (modifier & Hm & He);
        exists modifier; eauto.
    + left. unfold kindConflict in He. case_decide as Hboth; [|by apply elem_of_nil in He].
      apply list_elem_of_singleton in He. destruct Hboth. done.
  - intros [(H1 & H2 & ->)|(k & f & modifier & Hk & He)].
    + right. unfold kindConflict. rewrite decide_True by done. by apply list_elem_of_singleton.
    + left. exists k, f. split; [done|]. unfold validation.filterErrs. apply elem_of_app.
      destruct He as [[Hm He]|[Hm He]]; [left|right];
        apply elem_of_headerModifierErrs; eauto.
Qed.

Lemma elem_of_backendRefsErrs path i rule e :
  e ∈ backendRefsErrs path i rule ↔
  ∃ j backendRef,
    HTTPRouteRule.BackendRefs rule !! j = Some backendRef ∧
    filterViolation (HTTPBackendRef.Filters backendRef) (backendRefPath path i j) e.
Proof.
  unfold validation.backendRefsErrs. rewrite elem_of_join_imap.
  by setoid_rewrite elem_of_routeFiltersErrs.
Qed.

Lemma elem_of_matchRun path i j m seg e :
  matchRun path i j m seg →
  e ∈ seg ↔ headerViolation (HTTPRouteMatch.Headers m) (headersPath path i j) e.
Proof.
  unfold validation.matchRun, reports.headerViolation.
  destruct (0 <? len (HTTPRouteMatch.Headers m)) eqn:Hlen.
  - intros (names & _ & Hin & Heq)%validateHTTPHeaderMatches_returns. simplify_eq.
    rewrite list_elem_of_fmap. split.
    + intros (k & -> & Hk%Hin). by exists k.
    + intros (k & Hk%Hin & ->). by exists k.
  - intros ->. apply Z.ltb_ge in Hlen.
    destruct (HTTPRouteMatch.Headers m) as [|h hs]; [|unfold len in Hlen; simpl in Hlen; lia].
    split; [by intros ?%elem_of_nil|]. intros (k & Hk & _). simpl in Hk. rewrite occ_nil in Hk. lia.
Qed.

Lemma elem_of_runs_from {A} (R : nat → A → ErrorList → Prop)
    (V : nat → A → Error → Prop) (l : list A) e :
  (∀ i x seg, R i x seg → e ∈ seg ↔ V i x e) →
  ∀ i errs,
    runs_from R i l errs →
    e ∈ errs ↔ ∃ j x, l !! j = Some x ∧ V (i + j)%nat x e.
Proof.
  intros HR. induction l as [|y l IH]; intros i errs; simpl.
  { intros ->. split; [by intros ?%elem_of_nil|by intros (? & ? & ? & _)]. }
  intros (e1 & e2 & H1 & H2 & ->). rewrite elem_of_app, (HR _ _ _ H1), (IH _ _ H2). split.
  - intros [Hy|(j & x & Hj & Hx)].
    + exists 0%nat, y. by rewrite Nat.add_0_r.
    + exists (S j), x. by rewrite Nat.add_succ_r.
  - intros ([|j] & x & Hj & Hx); simpl in Hj.
    + left. simplify_eq. by rewrite Nat.add_0_r in Hx.
    + right. exists j, x. by rewrite Nat.add_succ_r in Hx.
Qed.

Lemma elem_of_ruleRun path i rule seg e :
  ruleRun path i rule seg → e ∈ seg ↔ ruleViolation path i rule e.
Proof.
  intros (em & Hem & ->). unfold reports.ruleViolation.
  rewrite !elem_of_app, elem_of_routeFiltersErrs, elem_of_backendRefsErrs.
  rewrite (elem_of_runs_from (matchRun path i)
             (λ j m e, headerViolation (HTTPRouteMatch.Headers m) (headersPath path i j) e)
             _ e (λ j m seg, elem_of_matchRun path i j m seg e) _ _ Hem).
  done.
Qed.

(** Every run of [ValidateHTTPRouteSpec] returns the errors found in the
    rules, then those of [ValidateParentRefs]; the errors found in the
    rules are exactly the errors for what is wrong in the filters, the
    filters of the backend references and the header matches. *)
Lemma ValidateHTTPRouteSpec_violations spec path :
  (∃ errs calls, Returns errs calls ∈ ValidateHTTPRouteSpec spec path) ∧
  ∀ o,
    o ∈ ValidateHTTPRouteSpec spec path →
    ∃ own,
      o = Returns (own ++ ValidateParentRefs (HTTPRouteSpec.ParentRefs spec) (Child path "spec"))
            [CallValidateParentRefs (HTTPRouteSpec.ParentRefs spec) (Child path "spec")] ∧
      ∀ e, e ∈ own ↔ violation spec path e.
Proof.
  split; [apply ValidateHTTPRouteSpec_runs|].
  intros o (own & Hown & ->)%ValidateHTTPRouteSpec_outcomes.
  exists own. split; [done|]. intros e. unfold reports.violation.
  by rewrite (elem_of_runs_from (ruleRun path) (ruleViolation path) _ e
                (λ i rule seg, elem_of_ruleRun path i rule seg e) _ _ Hown).
Qed.

(** ** Two runs, position by position *)

Lemma sameButName_refl errs : Forall2 sameButName errs errs.
Proof. apply Forall_Forall2_diag, Forall_true. intros e. by left. Qed.

Lemma matchRun_sameButName path i j m e1 e2 :
  matchRun path i j m e1 → matchRun path i j m e2 → Forall2 sameButName e1 e2.
Proof.
  unfold validation.matchRun. destruct (0 <? _); [|intros -> ->; constructor].
  intros (n1 & Hnd1 & Hin1 & Heq1)%validateHTTPHeaderMatches_returns
         (n2 & Hnd2 & Hin2 & Heq2)%validateHTTPHeaderMatches_returns.
  simplify_eq.
  assert (length n1 = length n2) as Hlen.
  { apply Permutation_length, NoDup_Permutation; [done..|]. intros k. by rewrite Hin1, Hin2. }
  apply Forall2_fmap. clear -Hlen. revert n2 Hlen.
  induction n1 as [|k1 n1 IH]; intros [|k2 n2] Hlen; try done; constructor.
  - right. by exists (headersPath path i j), (CanonicalHeaderKey k1), (CanonicalHeaderKey k2).
  - apply IH. by injection Hlen.
Qed.

Lemma runs_from_Forall2 {A} (R : nat → A → ErrorList → Prop) (P : Error → Error → Prop)
    (l : list A) :
  (∀ i x e1 e2, R i x e1 → R i x e2 → Forall2 P e1 e2) →
  ∀ i e1 e2, runs_from R i l e1 → runs_from R i l e2 → Forall2 P e1 e2.
Proof.
  intros HR. induction l as [|x l IH]; intros i e1 e2; simpl.
  { intros -> ->. constructor. }
  intros (a1 & b1 & Ha1 & Hb1 & ->) (a2 & b2 & Ha2 & Hb2 & ->).
  apply Forall2_app; eauto.
Qed.

Lemma ruleRun_sameButName path i rule e1 e2 :
  ruleRun path i rule e1 → ruleRun path i rule e2 → Forall2 sameButName e1 e2.
Proof.
  intros (m1 & H1 & ->) (m2 & H2 & ->).
  repeat apply Forall2_app; try apply sameButName_refl.
  eapply runs_from_Forall2; [|done..]. apply matchRun_sameButName.
Qed.

(** C6 (amended). [ValidateHTTPRouteSpec] has a run on every input, and
    two runs on the same input both return, make the same external call and
    report two lists of errors that agree position by position: the errors
    at a position are the same, or they are both the error for a repeated
    header match at one path and differ only in the header name they
    report. The two lists hold the same errors with the same
    multiplicities, and they are the same list when no match block has more
    than one repeated header name. *)
Theorem C6_runs_agree_up_to_order spec path :
  (∃ errs calls, Returns errs calls ∈ ValidateHTTPRouteSpec spec path) ∧
  ∀ o1 o2,
    o1 ∈ ValidateHTTPRouteSpec spec path →
    o2 ∈ ValidateHTTPRouteSpec spec path →
    ∃ errs1 errs2 calls,
      o1 = Returns errs1 calls ∧ o2 = Returns errs2 calls ∧
      Forall2 sameButName errs1 errs2 ∧
      errs1 ≡ₚ errs2 ∧
      ((∀ rule m, rule ∈ HTTPRouteSpec.Rules spec → m ∈ HTTPRouteRule.Matches rule →
                  atMostOneDuplicate m) →
       errs1 = errs2).
Proof.
  split; [apply ValidateHTTPRouteSpec_runs|].
  intros o1 o2 (e1 & H1 & ->)%ValidateHTTPRouteSpec_outcomes
               (e2 & H2 & ->)%ValidateHTTPRouteSpec_outcomes.
  do 3 eexists. split; [done|]. split; [done|]. split; [|split].
  - apply Forall2_app; [|apply sameButName_refl].
    eapply runs_from_Forall2; [|done..]. apply ruleRun_sameButName.
  - f_equiv. eapply runs_from_Permutation; [|done..]. apply ruleRun_Permutation.
  - intros Hone. f_equal. eapply runs_from_eq; [|done..].
    intros i rule c1 c2 Hrule. apply ruleRun_eq. intros m Hm. by eapply Hone.
Qed.


(** C8. [ValidateHTTPRouteSpec] has a run on every input, and every run
    makes exactly one external call, [ValidateParentRefs] on the parent
    references of the spec and the path [<path>.spec]; the loop over the
    rules makes no call and comes first, and the errors the call returns are
    the end of the result, unchanged. *)
Theorem C8_parent_refs_validated_once_at_the_end spec path :
  (∃ errs calls, Returns errs calls ∈ ValidateHTTPRouteSpec spec path) ∧
  ∀ o,
    o ∈ ValidateHTTPRouteSpec spec path →
    ∃ errs,
      Returns errs [] ∈ for_range (HTTPRouteSpec.Rules spec) (ruleBody path) [] ∧
      o = Returns (errs ++ ValidateParentRefs (HTTPRouteSpec.ParentRefs spec) (Child path "spec"))
            [CallValidateParentRefs (HTTPRouteSpec.ParentRefs spec) (Child path "spec")].
Proof.
  split; [apply ValidateHTTPRouteSpec_runs|].
  intros o (e & He & ->)%ValidateHTTPRouteSpec_outcomes. exists e. split; [|done].
  unfold for_range. apply (for_range_from_runs (ruleRun path)).
  - apply ruleBody_outcomes.
  - by exists e.
Qed.

(** C10. The result of [validateHTTPRouteFilters] does not depend on the
    match blocks passed to it. *)
Theorem C10_filters_independent_of_matches filters matches1 matches2 path :
  validateHTTPRouteFilters filters matches1 path = validateHTTPRouteFilters filters matches2 path.
Proof. reflexivity. Qed.

End Properties.

(* ===================================================================== *)
(** ** The validation on the inputs of the tests *)
(* ===================================================================== *)

Import examples.

(** TestValidateHTTPHeaderMatches: the expected error strings. *)
Example test_header_matched_more_than_once_same_case :
  validate (routeWithHeaders headersSameCase)
    = [Returns [duplicateHeader 0 0 "Header-Name-1"] [parentRefsCall];
       Returns [duplicateHeader 0 0 "Header-Name-1"] [parentRefsCall]] ∧
  ErrorString (duplicateHeader 0 0 "Header-Name-1")
    = Some ("spec.rules[0].matches[0].headers: Invalid value: "
            +:+ String (ascii_of_nat 34) "Header-Name-1" +:+ String (ascii_of_nat 34)
                  ": cannot match the same header multiple times in the same rule").
Proof. split; by vm_compute. Qed.

Example test_header_matched_more_than_once_different_case :
  validate (routeWithHeaders headersDifferentCase)
    = [Returns [duplicateHeader 0 0 "Header-Name-2"] [parentRefsCall];
       Returns [duplicateHeader 0 0 "Header-Name-2"] [parentRefsCall]].
Proof. by vm_compute. Qed.

Example test_no_header_matched_more_than_once :
  ∀ o, o ∈ validate (routeWithHeaders headersDistinct) → o = Returns [] [parentRefsCall].
Proof.
  intros o Ho. vm_compute in Ho.
  repeat (apply elem_of_cons in Ho as [->|Ho]; [done|]). inv Ho.
Qed.

Example test_no_header_matches :
  validate (routeWithHeaders []) = [Returns [] [parentRefsCall]].
Proof. by vm_compute. Qed.

(** TestValidateHTTPRoute: the errors of the header modifiers (2, 1, 1 and 1
    of them). *)
Example test_multiple_actions_for_the_same_request_header :
  validate (routeWithFilters
              [modifierFilter HTTPRouteFilterRequestHeaderModifier (Some fruitFilter) None])
  = [Returns
       [conflictingAction
          [Name "spec"; Name "rules"; Idx 0; Idx 0; Name "requestHeaderModifier"; Name "set"]
          "x-fruit" "watermelon";
        conflictingAction
          [Name "spec"; Name "rules"; Idx 0; Idx 0; Name "requestHeaderModifier"; Name "set"]
          "x-grain" "wheat"]
       [parentRefsCall]].
Proof. by vm_compute. Qed.

Example test_multiple_actions_with_inconsistent_case :
  validate (routeWithFilters
              [modifierFilter HTTPRouteFilterRequestHeaderModifier (Some fruitFilterCase) None])
  = [Returns
       [conflictingAction
          [Name "spec"; Name "rules"; Idx 0; Idx 0; Name "requestHeaderModifier"; Name "set"]
          "X-Fruit" "watermelon"]
       [parentRefsCall]].
Proof. by vm_compute. Qed.

Example test_multiple_of_the_same_action :
  validate (routeWithFilters
              [modifierFilter HTTPRouteFilterRequestHeaderModifier (Some fruitFilterTwice) None])
  = [Returns
       [conflictingAction
          [Name "spec"; Name "rules"; Idx 0; Idx 0; Name "requestHeaderModifier"; Name "add"]
          "x-fruit" "plum"]
       [parentRefsCall]].
Proof. by vm_compute. Qed.

Example test_multiple_actions_for_the_same_response_header :
  validate (routeWithFilters
              [modifierFilter HTTPRouteFilterResponseHeaderModifier None (Some exampleFilter)])
  = [Returns
       [conflictingAction
          [Name "spec"; Name "rules"; Idx 0; Idx 0; Name "responseHeaderModifier"; Name "set"]
          "x-example" "turnip"]
       [parentRefsCall]].
Proof. by vm_compute. Qed.

(** TestValidateHTTPBackendUniqueFilters: two mirror filters are valid. *)
Example test_duplicate_mirror_filter :
  validate routeWithMirrors = [Returns [] [parentRefsCall]].
Proof. by vm_compute. Qed.

(** A header that four entries name gets one error, for the second entry. *)
Example header_named_four_times :
  validateHTTPHeaderModifier strings.ToLower fruitFilterFourTimes [Name "m"]
  = ret [conflictingAction [Name "m"; Name "add"] "x-fruit" "plum"].
Proof. by vm_compute. Qed.

(** A filter whose type is a header modifier and whose payload is absent
    is passed over. *)
Example header_modifier_without_payload :
  validateHTTPRouteFilters strings.ToLower
    [modifierFilter HTTPRouteFilterRequestHeaderModifier None None] [] [Name "r"]
  = ret [].
Proof. by vm_compute. Qed.

(** A filter list with two redirects and a rewrite gets one error. *)
Example two_redirects_and_a_rewrite :
  validateHTTPRouteFilters strings.ToLower [redirectFilter; rewriteFilter; redirectFilter] []
    [Name "r"]
  = ret [redirectWithRewrite [Name "r"; Name "filters"]].
Proof. by vm_compute. Qed.

(** C1. The validation has no check of the query parameter matches: its
    runs are the same whatever the query parameter matches of the match
    blocks are. On the match block of the test
    TestValidateHTTPQueryParamMatches whose query parameter matches repeat
    a name, for which the test expects one error at
    [spec.rules[0].matches[0].queryParams], it reports no error of its own,
    whatever the library functions and the collaborator are. *)
Theorem C1_query_params_are_not_checked
    (ToLower CanonicalHeaderKey : string → string)
    (ValidateParentRefs : list ParentReference.t → Path → ErrorList) :
  (∀ q spec path,
     ValidateHTTPRouteSpec ToLower CanonicalHeaderKey ValidateParentRefs
       (replaceQueryParams q spec) path
     = ValidateHTTPRouteSpec ToLower CanonicalHeaderKey ValidateParentRefs spec path) ∧
  ValidateHTTPRoute ToLower CanonicalHeaderKey ValidateParentRefs
    (routeWithQueryParams queryParamsRepeated)
  = [Returns (ValidateParentRefs [] [Name "spec"; Name "spec"]) [parentRefsCall]].
Proof.
  split.
  - apply ValidateHTTPRouteSpec_replaceQueryParams.
  - by vm_compute.
Qed.

(** C3 at a rule that redirects and rewrites: the run of the loop body
    reports the one error at the filter list of the rule. *)
Lemma C3_redirect_with_rewrite_witness :
  let o := Returns [redirectWithRewrite [Name "spec"; Name "rules"; Idx 0; Name "filters"]] [] in
  o ∈ ruleBody strings.ToLower http.CanonicalHeaderKey [Name "spec"] 0 redirectingRule [] ∧
  ∃ errs,
    o = Returns errs [] ∧
    filter (λ e, Detail e = msgFilterConflict ∧
                 Field e = Child (Index (Child [Name "spec"] "rules") 0) "filters") errs =
      if decide (hasType HTTPRouteFilterRequestRedirect (HTTPRouteRule.Filters redirectingRule) ∧
                 hasType HTTPRouteFilterURLRewrite (HTTPRouteRule.Filters redirectingRule))
      then [Invalid (Child (Index (Child [Name "spec"] "rules") 0) "filters")
              (VFilterType HTTPRouteFilterRequestRedirect) msgFilterConflict]
      else [].
Proof.
  intros o.
  assert (o ∈ ruleBody strings.ToLower http.CanonicalHeaderKey [Name "spec"] 0 redirectingRule [])
    as Hrun.
  { vm_compute. left. }
  split; [exact Hrun|].
  exact (proj2 (proj2 (C3_one_error_for_redirect_with_rewrite strings.ToLower
                         http.CanonicalHeaderKey [] [] [Name "spec"])
                  0%nat redirectingRule)
           o Hrun).
Defined.

(** C4 at the input of the test [header matched more than once (different
    case)]. *)
Lemma C4_header_matches_witness :
  Returns [duplicateHeader 0 0 "Header-Name-2"] []
    ∈ validateHTTPHeaderMatches strings.ToLower http.CanonicalHeaderKey
        headersDifferentCase (headersAt 0 0) ∧
  ∃ names,
    NoDup names ∧
    (∀ k, k ∈ names ↔ (2 ≤ occ k (headerKeys strings.ToLower headersDifferentCase))%nat) ∧
    Returns [duplicateHeader 0 0 "Header-Name-2"] []
    = Returns ((λ k, Invalid (headersAt 0 0) (VString (http.CanonicalHeaderKey k))
                       "cannot match the same header multiple times in the same rule")
                 <$> names) [].
Proof.
  assert (Returns [duplicateHeader 0 0 "Header-Name-2"] []
            ∈ validateHTTPHeaderMatches strings.ToLower http.CanonicalHeaderKey
                headersDifferentCase (headersAt 0 0)) as Hrun.
  { vm_compute. left. }
  split; [exact Hrun|].
  exact (proj2 (C4_header_matches_one_error_per_duplicated_name
                  strings.ToLower http.CanonicalHeaderKey headersDifferentCase (headersAt 0 0))
           _ Hrun).
Defined.

(** C5, as stated, fails: a filter of type RequestMirror that carries a
    request header modifier has that modifier checked, and a filter of type
    RequestHeaderModifier that carries only a response header modifier has
    the latter checked at [responseHeaderModifier]. *)
Lemma C5_modifier_of_a_mirror_filter_is_checked :
  HTTPRouteFilter.Type' mirrorWithModifier ≠ HTTPRouteFilterRequestHeaderModifier ∧
  HTTPRouteFilter.Type' mirrorWithModifier ≠ HTTPRouteFilterResponseHeaderModifier ∧
  validateHTTPRouteFilters strings.ToLower [mirrorWithModifier] [] [Name "r"]
  = ret [conflictingAction [Name "r"; Idx 0; Name "requestHeaderModifier"; Name "add"]
           "x-fruit" "plum"] ∧
  validateHTTPRouteFilters strings.ToLower
    [modifierFilter HTTPRouteFilterRequestHeaderModifier None (Some fruitFilterTwice)] [] [Name "r"]
  = ret [conflictingAction [Name "r"; Idx 0; Name "responseHeaderModifier"; Name "add"]
           "x-fruit" "plum"].
Proof. repeat split; by vm_compute. Qed.

(** C6, as stated, fails: on a match block with two repeated header names
    one run reports them in one order and another run in the other. *)
Lemma C6_order_of_errors_differs_between_runs :
  Returns [duplicateHeader 0 0 "Alpha"; duplicateHeader 0 0 "Beta"] [parentRefsCall]
    ∈ validate (routeWithHeaders headersTwoDuplicates) ∧
  Returns [duplicateHeader 0 0 "Beta"; duplicateHeader 0 0 "Alpha"] [parentRefsCall]
    ∈ validate (routeWithHeaders headersTwoDuplicates) ∧
  [duplicateHeader 0 0 "Alpha"; duplicateHeader 0 0 "Beta"]
    ≠ [duplicateHeader 0 0 "Beta"; duplicateHeader 0 0 "Alpha"].
Proof.
  split; [|split].
  - vm_compute. left.
  - vm_compute. right. left.
  - by vm_compute.
Qed.

(** C6 (amended) at the two runs above, which agree position by position
    but for the names, and at a rule whose two match blocks each repeat one
    header name, where all runs report the same list. *)
Lemma C6_runs_agree_witness :
  let spec := HTTPRoute.Spec (routeWithHeaders headersTwoDuplicates) in
  let o1 := Returns [duplicateHeader 0 0 "Alpha"; duplicateHeader 0 0 "Beta"] [parentRefsCall] in
  let o2 := Returns [duplicateHeader 0 0 "Beta"; duplicateHeader 0 0 "Alpha"] [parentRefsCall] in
  let spec' := HTTPRoute.Spec (routeOf [reports_examples.twoBlocksRule]) in
  let o' := Returns [redirectWithRewrite [Name "spec"; Name "rules"; Idx 0; Name "filters"];
                     duplicateHeader 0 0 "Header-Name-1";
                     duplicateHeader 0 1 "Header-Name-2"] [parentRefsCall] in
  (o1 ∈ ValidateHTTPRouteSpec strings.ToLower http.CanonicalHeaderKey noParentRefErrs spec
          [Name "spec"] ∧
   o2 ∈ ValidateHTTPRouteSpec strings.ToLower http.CanonicalHeaderKey noParentRefErrs spec
          [Name "spec"] ∧
   ∃ errs1 errs2 calls,
     o1 = Returns errs1 calls ∧ o2 = Returns errs2 calls ∧
     Forall2 reports.sameButName errs1 errs2 ∧
     errs1 ≡ₚ errs2 ∧
     ((∀ rule m, rule ∈ HTTPRouteSpec.Rules spec → m ∈ HTTPRouteRule.Matches rule →
                 atMostOneDuplicate strings.ToLower m) →
      errs1 = errs2)) ∧
  ((∀ rule m, rule ∈ HTTPRouteSpec.Rules spec' → m ∈ HTTPRouteRule.Matches rule →
              atMostOneDuplicate strings.ToLower m) ∧
   o' ∈ ValidateHTTPRouteSpec strings.ToLower http.CanonicalHeaderKey noParentRefErrs spec'
          [Name "spec"] ∧
   ∀ o, o ∈ ValidateHTTPRouteSpec strings.ToLower http.CanonicalHeaderKey noParentRefErrs spec'
              [Name "spec"] →
        o = o').
Proof.
  intros spec o1 o2 spec' o'. split.
  - assert (o1 ∈ ValidateHTTPRouteSpec strings.ToLower http.CanonicalHeaderKey noParentRefErrs
                   spec [Name "spec"]) as H1.
    { vm_compute. left. }
    assert (o2 ∈ ValidateHTTPRouteSpec strings.ToLower http.CanonicalHeaderKey noParentRefErrs
                   spec [Name "spec"]) as H2.
    { vm_compute. right. left. }
    split; [exact H1|]. split; [exact H2|].
    exact (proj2 (C6_runs_agree_up_to_order strings.ToLower http.CanonicalHeaderKey
                    noParentRefErrs spec [Name "spec"])
             o1 o2 H1 H2).
  - assert (∀ rule m, rule ∈ HTTPRouteSpec.Rules spec' → m ∈ HTTPRouteRule.Matches rule →
                      atMostOneDuplicate strings.ToLower m) as Hone.
    { intros rule m ->%list_elem_of_singleton Hm. simpl in Hm.
      assert (∀ a b k, (2 ≤ occ k [a; b; a])%nat → a ≠ b → k = a) as Haba.
      { intros a b k. unfold occ. rewrite !filter_cons, filter_nil.
        repeat case_decide; simpl; intros; (done || lia). }
      assert (∀ a b k, (2 ≤ occ k [a; b; b])%nat → a ≠ b → k = b) as Habb.
      { intros a b k. unfold occ. rewrite !filter_cons, filter_nil.
        repeat case_decide; simpl; intros; (done || lia). }
      apply elem_of_cons in Hm as [->|Hm]; [|apply list_elem_of_singleton in Hm as ->];
        intros k1 k2 Hk1 Hk2.
      - change (headerKeys strings.ToLower _)
          with ["header-name-1"; "header-name-2"; "header-name-1"] in Hk1, Hk2.
        by rewrite (Haba _ _ _ Hk1), (Haba _ _ _ Hk2).
      - change (headerKeys strings.ToLower _)
          with ["header-name-1"; "header-name-2"; "header-name-2"] in Hk1, Hk2.
        by rewrite (Habb _ _ _ Hk1), (Habb _ _ _ Hk2). }
    assert (o' ∈ ValidateHTTPRouteSpec strings.ToLower http.CanonicalHeaderKey noParentRefErrs
                   spec' [Name "spec"]) as H'.
    { vm_compute. left. }
    split; [exact Hone|]. split; [exact H'|]. intros o Ho.
    destruct (proj2 (C6_runs_agree_up_to_order strings.ToLower http.CanonicalHeaderKey
                       noParentRefErrs spec' [Name "spec"])
                o o' Ho H')
      as (errs1 & errs2 & calls & -> & Heq & _ & _ & Hsame).
    rewrite Heq. f_equal. by apply Hsame.
Defined.


(** C8 at the input of the test [header matched more than once (same
    case)]. *)
Lemma C8_parent_refs_witness :
  let spec := HTTPRoute.Spec (routeWithHeaders headersSameCase) in
  let o := Returns [duplicateHeader 0 0 "Header-Name-1"] [parentRefsCall] in
  o ∈ ValidateHTTPRouteSpec strings.ToLower http.CanonicalHeaderKey noParentRefErrs spec
        [Name "spec"] ∧
  ∃ errs,
    Returns errs []
      ∈ for_range (HTTPRouteSpec.Rules spec)
          (ruleBody strings.ToLower http.CanonicalHeaderKey [Name "spec"]) [] ∧
    o = Returns (errs ++ noParentRefErrs (HTTPRouteSpec.ParentRefs spec) (Child [Name "spec"] "spec"))
          [CallValidateParentRefs (HTTPRouteSpec.ParentRefs spec) (Child [Name "spec"] "spec")].
Proof.
  intros spec o.
  assert (o ∈ ValidateHTTPRouteSpec strings.ToLower http.CanonicalHeaderKey noParentRefErrs spec
                [Name "spec"]) as Hrun.
  { vm_compute. left. }
  split; [exact Hrun|].
  exact (proj2 (C8_parent_refs_validated_once_at_the_end strings.ToLower
                  http.CanonicalHeaderKey noParentRefErrs spec [Name "spec"])
           o Hrun).
Defined.

(** C9. [ValidateHTTPRouteSpec] has a run on every input and no run
    panics: every run returns one list, the errors found in the rules
    followed by those of [ValidateParentRefs]. The errors found in the
    rules are exactly these, whatever else is wrong: for every rule, the
    error for a filter list that redirects and rewrites and the errors for
    the headers its header modifiers name again, for the filters of the
    rule and for those of each of its backend references, and, for every
    match block, the error for each header name matched more than once.
    The query parameter matches of a match block are not among them: on a
    route with one thing wrong of each kind, every run reports the four
    errors for the filters, the backend reference and the header matches
    and none for the query parameter matched twice. *)
Theorem C9_all_errors_but_those_of_query_params_are_reported :
  (∀ (ToLower CanonicalHeaderKey : string → string)
     (ValidateParentRefs : list ParentReference.t → Path → ErrorList) spec path,
     (∃ errs calls,
        Returns errs calls
          ∈ ValidateHTTPRouteSpec ToLower CanonicalHeaderKey ValidateParentRefs spec path) ∧
     ∀ o,
       o ∈ ValidateHTTPRouteSpec ToLower CanonicalHeaderKey ValidateParentRefs spec path →
       ∃ own,
         o = Returns (own ++ ValidateParentRefs (HTTPRouteSpec.ParentRefs spec)
                               (Child path "spec"))
               [CallValidateParentRefs (HTTPRouteSpec.ParentRefs spec) (Child path "spec")] ∧
         ∀ e, e ∈ own ↔ reports.violation ToLower CanonicalHeaderKey spec path e) ∧
  ∀ o,
    o ∈ validate reports_examples.crowdedRoute ↔
    o = Returns
          [conflictingAction
             [Name "spec"; Name "rules"; Idx 0; Idx 2; Name "requestHeaderModifier"; Name "add"]
             "x-fruit" "plum";
           redirectWithRewrite [Name "spec"; Name "rules"; Idx 0; Name "filters"];
           conflictingAction
             [Name "spec"; Name "rules"; Idx 0; Name "backendRefs"; Idx 0; Idx 0;
              Name "responseHeaderModifier"; Name "set"]
             "x-example" "turnip";
           duplicateHeader 0 0 "Header-Name-1"]
          [parentRefsCall].
Proof.
  split.
  - intros ToLower CanonicalHeaderKey ValidateParentRefs spec path.
    apply ValidateHTTPRouteSpec_violations.
  - intros o. vm_compute. split.
    + intros Ho. repeat (apply elem_of_cons in Ho as [->|Ho]); try done.
      by apply elem_of_nil in Ho.
    + intros ->. left.
Qed.

End properties.

(* ===================================================================== *)
(** * Further properties of the validation *)
(* ===================================================================== *)

Module more.
Import field gatewayv1b1 Go GoFacts validation validity.

Section More.
Variable ToLower : string → string.
Variable CanonicalHeaderKey : string → string.
Variable ValidateParentRefs : list ParentReference.t → Path → ErrorList.

Local Abbreviation validateHTTPHeaderModifier := (validation.validateHTTPHeaderModifier ToLower).
Local Abbreviation validateHTTPHeaderMatches :=
  (validation.validateHTTPHeaderMatches ToLower CanonicalHeaderKey).
Local Abbreviation validateHTTPRouteFilters := (validation.validateHTTPRouteFilters ToLower).
Local Abbreviation ruleBody := (validation.ruleBody ToLower CanonicalHeaderKey).
Local Abbreviation ValidateHTTPRouteSpec :=
  (validation.ValidateHTTPRouteSpec ToLower CanonicalHeaderKey ValidateParentRefs).
Local Abbreviation key := (validation.key ToLower).
Local Abbreviation conflicts := (validation.conflicts ToLower).
Local Abbreviation headerKeys := (validation.headerKeys ToLower).
Local Abbreviation routeFiltersErrs := (validation.routeFiltersErrs ToLower).
Local Abbreviation modifierValid := (validity.modifierValid ToLower).
Local Abbreviation filtersValid := (validity.filtersValid ToLower).
Local Abbreviation matchValid := (validity.matchValid ToLower).
Local Abbreviation ruleValid := (validity.ruleValid ToLower).
Local Abbreviation specValid := (validity.specValid ToLower).

(** ** Occurrences and repetitions *)

Lemma occ_le_1_NoDup (l : list string) : (∀ k, occ k l ≤ 1)%nat ↔ NoDup l.
Proof.
  induction l as [|x l IH].
  - split; [constructor|]. intros _ k. rewrite properties.occ_nil. lia.
  - rewrite NoDup_cons, <- IH. split.
    + intros Hocc. split.
      * intros Hx%properties.occ_pos. specialize (Hocc x).
        rewrite properties.occ_cons, decide_True in Hocc by done. lia.
      * intros k. specialize (Hocc k). rewrite properties.occ_cons in Hocc. lia.
    + intros [Hx Hocc] k. rewrite properties.occ_cons. case_decide as Hk; [|apply Hocc].
      subst. rewrite <- properties.occ_pos in Hx. lia.
Qed.

Lemma occ_Permutation k (l1 l2 : list string) : l1 ≡ₚ l2 → occ k l1 = occ k l2.
Proof. intros Hp. unfold occ. by rewrite Hp. Qed.

Lemma keys_of_actions m path : key <$> actions m path = ToLower <$> modifierNames m.
Proof.
  unfold actions, modifierNames. rewrite !fmap_app, <- !list_fmap_compose. done.
Qed.

Lemma ret_inj {A} (a b : A) : ret a = ret b → a = b.
Proof. unfold ret. by intros [= ->]. Qed.

Lemma occ_fmap {A} (f : A → string) (k : string) (l : list A) :
  occ k (f <$> l) = length (filter (λ x, f x = k) l).
Proof.
  unfold occ. induction l as [|x l IH]; [done|].
  rewrite fmap_cons, !filter_cons.
  destruct (decide (k = f x)) as [->|Hne].
  - rewrite decide_True by done. simpl. by rewrite IH.
  - rewrite decide_False by done. done.
Qed.

Lemma length_filter_ne (k : string) (keys : list string) :
  length keys = (occ k keys + length (filter (λ x, x ≠ k) keys))%nat.
Proof.
  unfold occ. induction keys as [|x keys IH]; [done|].
  rewrite !filter_cons. destruct (decide (k = x)) as [->|Hne].
  - rewrite decide_False by naive_solver. simpl. lia.
  - rewrite decide_True by done. simpl. lia.
Qed.

Lemma occ_filter_ne (k k' : string) (keys : list string) :
  k' ≠ k → occ k' (filter (λ x, x ≠ k) keys) = occ k' keys.
Proof.
  intros Hne. unfold occ. induction keys as [|x keys IH]; [done|].
  rewrite !filter_cons. destruct (decide (x ≠ k)) as [Hx|Hx].
  - rewrite filter_cons. case_decide; simpl; by rewrite IH.
  - rewrite decide_False; [done|]. intros ->. by apply Hx.
Qed.

(** Names that each occur twice or more among [keys] are at most half as
    many as the keys. *)
Lemma repeated_names_bound (names : list string) :
  ∀ keys : list string,
    NoDup names →
    (∀ k, k ∈ names → 2 ≤ occ k keys)%nat →
    (2 * length names ≤ length keys)%nat.
Proof.
  induction names as [|k names IH]; intros keys Hnd Hocc; simpl; [lia|].
  apply NoDup_cons in Hnd as [Hk Hnd].
  specialize (IH (filter (λ x, x ≠ k) keys) Hnd).
  rewrite (length_filter_ne k keys).
  assert (2 ≤ occ k keys)%nat by (apply Hocc; left).
  assert (2 * length names ≤ length (filter (λ x, x ≠ k) keys))%nat; [|lia].
  apply IH. intros k' Hk'. rewrite occ_filter_ne.
  - apply Hocc. by right.
  - intros ->. done.
Qed.

(** ** The header-modifier check *)

Lemma conflicts_keys acts :
  Forall names_value acts →
  NoDup (validation.error_key ToLower <$> conflicts [] acts) ∧
  ∀ k, k ∈ validation.error_key ToLower <$> conflicts [] acts ↔ (2 ≤ occ k (key <$> acts))%nat.
Proof.
  intros Hacts.
  assert (∀ k, occ k (validation.error_key ToLower <$> conflicts [] acts)
               = if decide (2 ≤ occ k (key <$> acts))%nat then 1%nat else 0%nat) as Hcount.
  { intros k. rewrite occ_fmap, (properties.conflicts_count ToLower k acts Hacts).
    rewrite properties.occ_nil. repeat case_decide; lia. }
  split.
  - apply occ_le_1_NoDup. intros k. rewrite Hcount. case_decide; lia.
  - intros k. rewrite <- properties.occ_pos, Hcount. case_decide; lia.
Qed.

Lemma conflicts_nil_iff acts :
  Forall names_value acts → (conflicts [] acts = [] ↔ NoDup (key <$> acts)).
Proof.
  intros Hacts. destruct (conflicts_keys acts Hacts) as [_ Hin].
  rewrite <- occ_le_1_NoDup. split.
  - intros Hnil k. rewrite Hnil in Hin. specialize (Hin k).
    destruct (decide (2 ≤ occ k (key <$> acts))%nat) as [H2|]; [|lia].
    apply Hin in H2. inv H2.
  - intros Hocc. destruct (conflicts [] acts) as [|e errs]; [done|].
    specialize (Hin (validation.error_key ToLower e)).
    assert (2 ≤ occ (validation.error_key ToLower e) (key <$> acts))%nat as H2.
    { apply Hin. left. }
    specialize (Hocc (validation.error_key ToLower e)). lia.
Qed.

(** X1. [validateHTTPHeaderModifier] returns no error exactly when no two
    entries of the [Add], [Set] and [Remove] lists name the same header,
    names being folded by [ToLower]. *)
Theorem header_modifier_accepted_iff_names_distinct (modifier : HTTPHeaderFilter.t) path :
  validateHTTPHeaderModifier modifier path = ret [] ↔ modifierValid modifier.
Proof.
  rewrite properties.validateHTTPHeaderModifier_conflicts. unfold validity.modifierValid.
  rewrite <- keys_of_actions with (path := path).
  rewrite <- (conflicts_nil_iff _ (properties.actions_names_value modifier path)).
  split; [apply ret_inj|by intros ->].
Qed.

(** X2. [validateHTTPHeaderModifier] returns at most half as many errors as
    the [Add], [Set] and [Remove] lists have entries. *)
Theorem header_modifier_errors_at_most_half_the_entries (modifier : HTTPHeaderFilter.t) path :
  ∃ errs,
    validateHTTPHeaderModifier modifier path = ret errs ∧
    (2 * length errs ≤ length (HTTPHeaderFilter.Add modifier)
                       + length (HTTPHeaderFilter.Set' modifier)
                       + length (HTTPHeaderFilter.Remove modifier))%nat.
Proof.
  eexists. split; [apply properties.validateHTTPHeaderModifier_conflicts|].
  destruct (conflicts_keys _ (properties.actions_names_value modifier path)) as [Hnd Hin].
  pose proof (repeated_names_bound _ (key <$> actions modifier path) Hnd) as Hb.
  assert (length (actions modifier path)
          = (length (HTTPHeaderFilter.Add modifier) + length (HTTPHeaderFilter.Set' modifier)
             + length (HTTPHeaderFilter.Remove modifier))%nat) as Hlen.
  { unfold actions. rewrite !length_app, !length_fmap. lia. }
  rewrite !length_fmap, Hlen in Hb. apply Hb. intros k. apply Hin.
Qed.

(** ** The header-match check *)

Lemma headerMatches_clean_iff matches path :
  Returns [] [] ∈ validateHTTPHeaderMatches matches path ↔ NoDup (headerKeys matches).
Proof.
  rewrite <- occ_le_1_NoDup. split.
  - intros (names & _ & Hin & Heq)%properties.validateHTTPHeaderMatches_returns k.
    injection Heq as Heq. symmetry in Heq. apply fmap_nil_inv in Heq as ->.
    destruct (decide (2 ≤ occ k (headerKeys matches))%nat) as [H2|]; [|lia].
    apply Hin in H2. inv H2.
  - intros Hocc.
    destruct (properties.validateHTTPHeaderMatches_runs ToLower CanonicalHeaderKey matches path)
      as [errs Hrun].
    destruct (properties.validateHTTPHeaderMatches_returns _ _ _ _ _ Hrun)
      as (names & _ & Hin & Heq).
    destruct names as [|k names]; [by simplify_eq|].
    assert (2 ≤ occ k (headerKeys matches))%nat by (apply Hin; left).
    specialize (Hocc k). lia.
Qed.

(** X3. The header-match check accepts a match block exactly when the
    folded names of its header matches are pairwise distinct: then every
    run returns no error, and otherwise no run does. *)
Theorem header_matches_accepted_iff_names_distinct matches path :
  (NoDup (headerKeys matches) ↔
   ∀ o, o ∈ validateHTTPHeaderMatches matches path → o = Returns [] []) ∧
  (NoDup (headerKeys matches) ↔ Returns [] [] ∈ validateHTTPHeaderMatches matches path).
Proof.
  split; [|by rewrite headerMatches_clean_iff].
  rewrite <- (headerMatches_clean_iff matches path). split.
  - intros Hclean o Ho.
    destruct (properties.validateHTTPHeaderMatches_returns _ _ _ _ _ Ho) as (names & _ & _ & ->).
    f_equal. apply (proj1 (Permutation_nil_r _)).
    by apply (properties.headerMatches_runs_Permutation ToLower CanonicalHeaderKey matches path).
  - intros Hall.
    destruct (properties.validateHTTPHeaderMatches_runs ToLower CanonicalHeaderKey matches path)
      as [errs Hrun].
    by rewrite <- (Hall _ Hrun).
Qed.

(** X4. [validateHTTPHeaderMatches] has a run on every input, and a run
    returns at most half as many errors as there are header matches. *)
Theorem header_matches_errors_at_most_half_the_matches matches path :
  (∃ errs, Returns errs [] ∈ validateHTTPHeaderMatches matches path) ∧
  ∀ o,
    o ∈ validateHTTPHeaderMatches matches path →
    ∃ errs, o = Returns errs [] ∧ (2 * length errs ≤ length matches)%nat.
Proof.
  split; [apply properties.validateHTTPHeaderMatches_runs|].
  intros o (names & Hnd & Hin & ->)%properties.validateHTTPHeaderMatches_returns.
  eexists. split; [done|]. rewrite length_fmap.
  pose proof (repeated_names_bound names (headerKeys matches) Hnd) as Hb.
  unfold validation.headerKeys in Hb at 2. rewrite length_fmap in Hb.
  apply Hb. intros k. apply Hin.
Qed.

(** X5. The header-match check reads the header matches only through the
    folded names they carry, whatever their order and their values: two
    lists of matches whose folded names are the same up to order have the
    same runs. *)
Theorem header_matches_depend_on_folded_names_only matches1 matches2 path :
  headerKeys matches1 ≡ₚ headerKeys matches2 →
  ∀ o, o ∈ validateHTTPHeaderMatches matches1 path ↔
       o ∈ validateHTTPHeaderMatches matches2 path.
Proof.
  intros Hperm o. rewrite !properties.validateHTTPHeaderMatches_outcomes.
  replace (foldl incr (∅ : gmap string Z) (headerKeys matches2))
    with (foldl incr (∅ : gmap string Z) (headerKeys matches1)); [done|].
  apply map_eq. intros k. rewrite !properties.lookup_foldl_incr.
  by rewrite (occ_Permutation k _ _ Hperm).
Qed.

(** ** The filter check *)

Lemma filterErrs_replacePayloads mirror redirect rewrite path i f :
  filterErrs ToLower path i (replacePayloads mirror redirect rewrite f) = filterErrs ToLower path i f.
Proof. done. Qed.

(** X6. [validateHTTPRouteFilters] never reads the mirror, redirect and
    rewrite payloads of the filters: its result is the same whatever they
    are. It reads the [Type] of a filter and its two header-modifier
    payloads only. *)
Theorem route_filters_ignore_other_payloads mirror redirect rewrite filters matches path :
  validateHTTPRouteFilters (replacePayloads mirror redirect rewrite <$> filters) matches path
  = validateHTTPRouteFilters filters matches path.
Proof.
  rewrite !properties.validateHTTPRouteFilters_errs. f_equal.
  unfold validation.routeFiltersErrs. rewrite imap_fmap. f_equal.
  assert (∀ t, hasType t (replacePayloads mirror redirect rewrite <$> filters) ↔ hasType t filters)
    as Htype.
  { intros t. unfold hasType. by rewrite <- list_fmap_compose. }
  unfold kindConflict. repeat case_decide; try done; rewrite !Htype in *; tauto.
Qed.

Lemma headerModifierErrs_nil_iff m path :
  headerModifierErrs ToLower m path = [] ↔ ∀ x, x ∈ option_list m → modifierValid x.
Proof.
  destruct m as [m|]; simpl.
  - rewrite (conflicts_nil_iff _ (properties.actions_names_value m path)), keys_of_actions.
    split.
    + by intros Hnd x ->%list_elem_of_singleton.
    + intros Hall. apply Hall. left.
  - split; [|done]. intros _ x Hx. inv Hx.
Qed.

Lemma filterErrs_nil_iff path i f :
  filterErrs ToLower path i f = [] ↔ ∀ m, m ∈ modifiersOf f → modifierValid m.
Proof.
  unfold validation.filterErrs, modifiersOf.
  rewrite app_nil, !headerModifierErrs_nil_iff. split.
  - intros [H1 H2] m [Hm|Hm]%elem_of_app; [by apply H1|by apply H2].
  - intros Hall. split; intros x Hx; apply Hall, elem_of_app; [by left|by right].
Qed.

Lemma routeFiltersErrs_nil_iff filters path :
  routeFiltersErrs filters path = [] ↔ filtersValid filters.
Proof.
  unfold validation.routeFiltersErrs, validity.filtersValid.
  rewrite app_nil, join_nil, Forall_forall. f_equiv.
  - split.
    + intros Hall f m Hf Hm. apply list_elem_of_lookup in Hf as [i Hi].
      apply (filterErrs_nil_iff path i f); [|done].
      apply Hall. by apply elem_of_lookup_imap_2.
    + intros Hall l (i & f & -> & Hi)%elem_of_lookup_imap.
      apply filterErrs_nil_iff. intros m Hm. eapply Hall; [|done].
      by eapply list_elem_of_lookup_2.
  - unfold kindConflict. case_decide as Hboth.
    + split; [done|]. intros Hnot. by destruct Hnot.
    + done.
Qed.

(** X7. [validateHTTPRouteFilters] returns no error exactly when every
    header modifier a filter of the list carries names each header at most
    once and the list does not hold both a filter of type RequestRedirect
    and one of type URLRewrite. *)
Theorem route_filters_accepted_iff filters matches path :
  validateHTTPRouteFilters filters matches path = ret [] ↔ filtersValid filters.
Proof.
  rewrite properties.validateHTTPRouteFilters_errs, <- (routeFiltersErrs_nil_iff filters path).
  split; [apply ret_inj|by intros ->].
Qed.

(** ** The validation of a spec *)

Lemma matchRun_clean_iff path i j m :
  validation.matchRun ToLower CanonicalHeaderKey path i j m [] ↔ matchValid m.
Proof.
  unfold validation.matchRun, validity.matchValid.
  destruct (HTTPRouteMatch.Headers m) as [|h hs] eqn:Hh.
  - simpl. split; [constructor|done].
  - replace (0 <? len (h :: hs)) with true; [apply headerMatches_clean_iff|].
    symmetry. apply Z.ltb_lt. unfold len. simpl. lia.
Qed.

Lemma runs_from_clean {A} (R : nat → A → ErrorList → Prop) (l : list A) :
  ∀ i, runs_from R i l [] ↔ ∀ j x, l !! j = Some x → R (i + j)%nat x [].
Proof.
  induction l as [|x l IH]; intros i; simpl.
  { split; [|done]. by intros _ j y. }
  split.
  - intros (e1 & e2 & H1 & H2 & Heq). symmetry in Heq. apply app_nil in Heq as [-> ->].
    intros [|j] y Hj; simpl in Hj.
    + simplify_eq. by rewrite Nat.add_0_r.
    + rewrite <- Nat.add_succ_comm. by apply IH.
  - intros Hall. exists [], []. split; [|split; [|done]].
    + rewrite <- (Nat.add_0_r i). by apply Hall.
    + apply IH. intros j y Hj. rewrite Nat.add_succ_comm. by apply Hall.
Qed.

Lemma ruleRun_clean_iff path i rule :
  validation.ruleRun ToLower CanonicalHeaderKey path i rule [] ↔ ruleValid rule.
Proof.
  unfold validation.ruleRun, validity.ruleValid. split.
  - intros (em & Hem & Heq). symmetry in Heq.
    apply app_nil in Heq as [HF [HB ->]%app_nil]. split; [|split].
    + by apply (routeFiltersErrs_nil_iff _ (rulePath path i)).
    + intros b (j & Hj)%list_elem_of_lookup.
      apply (routeFiltersErrs_nil_iff _ (backendRefPath path i j)).
      unfold validation.backendRefsErrs in HB. rewrite join_nil, Forall_forall in HB.
      apply HB.
      apply (elem_of_lookup_imap_2
               (λ j b, routeFiltersErrs (HTTPBackendRef.Filters b) (backendRefPath path i j))).
      done.
    + intros m (j & Hj)%list_elem_of_lookup.
      apply (matchRun_clean_iff path i j). by apply (proj1 (runs_from_clean _ _ _) Hem j m).
  - intros (HF & HB & HM). exists []. split.
    + apply runs_from_clean. intros j m Hj. apply matchRun_clean_iff, HM.
      by eapply list_elem_of_lookup_2.
    + apply (routeFiltersErrs_nil_iff _ (rulePath path i)) in HF. rewrite HF. simpl.
      rewrite app_nil_r. symmetry. unfold validation.backendRefsErrs.
      apply join_nil, Forall_forall. intros l (j & b & -> & Hj)%elem_of_lookup_imap.
      apply routeFiltersErrs_nil_iff, HB. by eapply list_elem_of_lookup_2.
Qed.

Lemma rules_clean_iff path rules :
  runs_from (validation.ruleRun ToLower CanonicalHeaderKey path) 0 rules [] ↔
  ∀ rule, rule ∈ rules → ruleValid rule.
Proof.
  rewrite runs_from_clean. split.
  - intros Hall rule (j & Hj)%list_elem_of_lookup. by apply (ruleRun_clean_iff path (0 + j)), Hall.
  - intros Hall j rule Hj. apply ruleRun_clean_iff, Hall. by eapply list_elem_of_lookup_2.
Qed.

(** X8. [ValidateHTTPRouteSpec] reports nothing besides the errors of
    [ValidateParentRefs] exactly when the spec is valid: every filter list
    of every rule and backend reference is accepted by the filter check
    and no match block repeats a folded header name. For a valid spec this
    is the only run; for another spec no run is like this. *)
Theorem spec_accepted_iff_valid spec path :
  let clean :=
    Returns (ValidateParentRefs (HTTPRouteSpec.ParentRefs spec) (Child path "spec"))
      [CallValidateParentRefs (HTTPRouteSpec.ParentRefs spec) (Child path "spec")] in
  (specValid spec ↔ clean ∈ ValidateHTTPRouteSpec spec path) ∧
  (specValid spec ↔ ∀ o, o ∈ ValidateHTTPRouteSpec spec path → o = clean).
Proof.
  intros clean.
  assert (specValid spec ↔ clean ∈ ValidateHTTPRouteSpec spec path) as Hone.
  { unfold validity.specValid. rewrite <- (rules_clean_iff path).
    rewrite properties.ValidateHTTPRouteSpec_outcomes. split.
    - intros Hrun. by exists [].
    - intros (e & He & Heq). unfold clean in Heq. injection Heq as Heq.
      assert (e = []) as ->; [|done].
      apply (f_equal length) in Heq. rewrite length_app in Heq.
      destruct e; [done|simpl in Heq; lia]. }
  split; [done|]. rewrite Hone. split.
  - intros Hclean o Ho.
    apply properties.ValidateHTTPRouteSpec_outcomes in Ho as (e & He & ->).
    apply properties.ValidateHTTPRouteSpec_outcomes in Hclean as (e0 & He0 & Heq0).
    unfold clean in Heq0. injection Heq0 as Heq0.
    assert (e0 = []) as ->.
    { apply (f_equal length) in Heq0. rewrite length_app in Heq0.
      destruct e0; [done|simpl in Heq0; lia]. }
    assert (e ≡ₚ []) as ->%Permutation_nil_r; [|done].
    eapply properties.runs_from_Permutation; [|done..]. apply properties.ruleRun_Permutation.
  - intros Hall.
    destruct (properties.ValidateHTTPRouteSpec_runs ToLower CanonicalHeaderKey
                ValidateParentRefs spec path) as (errs & calls & Hrun).
    by rewrite <- (Hall _ Hrun).
Qed.

(** ** Where the errors point *)

Lemma runs_from_elem {A} (R : nat → A → ErrorList → Prop) (l : list A) :
  ∀ i e x,
    runs_from R i l e → x ∈ e →
    ∃ j y seg, l !! j = Some y ∧ R (i + j)%nat y seg ∧ x ∈ seg.
Proof.
  induction l as [|y l IH]; intros i e x; simpl.
  { intros -> Hx. inv Hx. }
  intros (e1 & e2 & H1 & H2 & ->) [Hx|Hx]%elem_of_app.
  - exists 0%nat, y, e1. by rewrite Nat.add_0_r.
  - destruct (IH _ _ _ H2 Hx) as (j & z & seg & Hj & Hseg & Hin).
    exists (S j), z, seg. by rewrite <- Nat.add_succ_comm.
Qed.

Lemma actions_sub m path a :
  a ∈ actions m path → ∃ name, act_sub a = Child path name.
Proof.
  unfold actions. rewrite !elem_of_app, !list_elem_of_fmap.
  intros [(h & -> & _)|[(h & -> & _)|(n & -> & _)]]; eauto.
Qed.

Lemma headerModifierErrs_prefix m path e :
  e ∈ headerModifierErrs ToLower m path → path `prefix_of` Field e.
Proof.
  destruct m as [m|]; simpl; [|by intros ?%elem_of_nil].
  intros (pre & a & post & Hacts & _ & ->)%properties.elem_of_conflicts.
  destruct (actions_sub m path a) as [name Hsub].
  { rewrite Hacts. apply elem_of_app. right. left. }
  simpl. rewrite Hsub. by apply prefix_app_r.
Qed.

Lemma routeFiltersErrs_prefix filters path e :
  e ∈ routeFiltersErrs filters path → path `prefix_of` Field e.
Proof.
  unfold validation.routeFiltersErrs. intros [He|He]%elem_of_app.
  - apply list_elem_of_join in He as (l & He & (i & f & -> & _)%elem_of_lookup_imap).
    unfold validation.filterErrs in He. apply elem_of_app in He as [He|He].
    all: apply headerModifierErrs_prefix in He.
    all: etrans; [|exact He].
    all: unfold Child, Index; rewrite <- (assoc_L (++)); by apply prefix_app_r.
  - unfold kindConflict in He. case_decide; [|inv He].
    apply list_elem_of_singleton in He as ->. by apply prefix_app_r.
Qed.

Lemma ruleRun_prefix path i rule errs e :
  validation.ruleRun ToLower CanonicalHeaderKey path i rule errs →
  e ∈ errs → rulePath path i `prefix_of` Field e.
Proof.
  intros (em & Hem & ->) [He|[He|He]%elem_of_app]%elem_of_app.
  - by apply routeFiltersErrs_prefix in He.
  - unfold validation.backendRefsErrs in He.
    apply list_elem_of_join in He as (l & He & (j & b & -> & _)%elem_of_lookup_imap).
    apply routeFiltersErrs_prefix in He. etrans; [|exact He].
    unfold backendRefPath, Child, Index. rewrite <- (assoc_L (++)). by apply prefix_app_r.
  - destruct (runs_from_elem _ _ _ _ _ Hem He) as (j & m & seg & _ & Hseg & Hin).
    unfold validation.matchRun in Hseg. destruct (0 <? _); [|subst; inv Hin].
    apply properties.validateHTTPHeaderMatches_returns in Hseg as (names & _ & _ & Heq).
    injection Heq as ->. apply list_elem_of_fmap in Hin as (k & -> & _). simpl.
    unfold headersPath, Child, Index. rewrite <- !(assoc_L (++)). by apply prefix_app_r.
Qed.

(** X9. Every error [ValidateHTTPRouteSpec] reports besides those of
    [ValidateParentRefs] points into a rule of the spec: its field path
    extends [<path>.rules[i]] for an index [i] of the rule list. *)
Theorem errors_point_into_the_rules spec path :
  (∃ errs calls, Returns errs calls ∈ ValidateHTTPRouteSpec spec path) ∧
  ∀ o,
    o ∈ ValidateHTTPRouteSpec spec path →
    ∃ own calls,
      o = Returns (own ++ ValidateParentRefs (HTTPRouteSpec.ParentRefs spec) (Child path "spec"))
            calls ∧
      ∀ e, e ∈ own →
           ∃ i, (i < length (HTTPRouteSpec.Rules spec))%nat ∧
                Index (Child path "rules") i `prefix_of` Field e.
Proof.
  split; [apply properties.ValidateHTTPRouteSpec_runs|].
  intros o (own & Hown & ->)%properties.ValidateHTTPRouteSpec_outcomes.
  do 2 eexists. split; [done|]. intros e He.
  destruct (runs_from_elem _ _ _ _ _ Hown He) as (i & rule & seg & Hi & Hseg & Hin).
  exists i. split; [by eapply lookup_lt_Some|].
  by apply (ruleRun_prefix path i rule seg).
Qed.

End More.

Lemma header_matches_depend_on_folded_names_only_witness :
  headerKeys strings.ToLower examples.headersDifferentCase
    ≡ₚ headerKeys strings.ToLower validity_examples.headersReordered ∧
  Returns [examples.duplicateHeader 0 0 "Header-Name-2"] []
    ∈ validateHTTPHeaderMatches strings.ToLower http.CanonicalHeaderKey
        validity_examples.headersReordered (examples.headersAt 0 0).
Proof.
  assert (headerKeys strings.ToLower examples.headersDifferentCase
            ≡ₚ headerKeys strings.ToLower validity_examples.headersReordered) as Hperm.
  { vm_compute. apply perm_swap. }
  split; [exact Hperm|].
  apply (header_matches_depend_on_folded_names_only
           strings.ToLower http.CanonicalHeaderKey _ _ _ Hperm).
  vm_compute. left.
Defined.

End more.

(* ===================================================================== *)
(** * The gateway class printer *)
(* ===================================================================== *)

Module printing_facts.
Import IO printer printing.

Section PrintingFacts.
Variable Policies ObjRef Clock : Type.
Context `{Countable ClassID}.
Variable SortByString : list (GatewayClassNode Policies) → list (GatewayClassNode Policies).
Variable Since : Z → Clock → Z * Clock.
Variable HumanDuration : Z → string.
Variable TableWrite : Table → Z → string.
Variable Marshal : gatewayClassDescribeView ObjRef → string + string.
Variable TrimSpace : string → string.
Variable ConvertPoliciesMapToPolicyRefs : Policies → list ObjRef.
Variable ToAPIVersionAndKind : gatewayv1.GatewayClass.t → string * string.

Local Abbreviation Model := (ResourceModel Policies (ClassID:=ClassID)).
Local Abbreviation PrintTable :=
  (printer.PrintTable (ClassID:=ClassID) SortByString Since HumanDuration TableWrite).
Local Abbreviation describeViews :=
  (printer.describeViews ConvertPoliciesMapToPolicyRefs ToAPIVersionAndKind).
Local Abbreviation PrintDescribeView :=
  (printer.PrintDescribeView (Clock:=Clock) (ClassID:=ClassID)
     Marshal TrimSpace ConvertPoliciesMapToPolicyRefs ToAPIVersionAndKind).
Local Abbreviation rowOf := (printing.rowOf HumanDuration).
Local Abbreviation ages := (printing.ages Since).
Local Abbreviation rowsOf := (printing.rowsOf Since HumanDuration).
Local Abbreviation marshals := (printing.marshals Marshal).
Local Abbreviation printed := (printing.printed Marshal TrimSpace).
Local Abbreviation block :=
  (printing.block Marshal TrimSpace ConvertPoliciesMapToPolicyRefs ToAPIVersionAndKind).

(** The nodes of a model, in the order of its map. *)
Local Abbreviation nodesOf m := ((map_to_list (GatewayClasses m)).*2).

(** ** Runs *)

Lemma elem_of_run {A B} (m : P Clock A) (k : A → P Clock B) w r :
  r ∈ bind m k w ↔
  (∃ a w', Done a w' ∈ m w ∧ r ∈ k a w') ∨
  (∃ code w', Exited code w' ∈ m w ∧ r = Exited code w').
Proof.
  unfold bind. rewrite list_elem_of_bind. split.
  - intros ([a w'|code w'] & Hr & Hin).
    + left. eauto.
    + right. apply list_elem_of_singleton in Hr. eauto.
  - intros [(a & w' & Hin & Hr)|(code & w' & Hin & ->)].
    + exists (Done a w'). done.
    + exists (Exited code w'). split; [apply list_elem_of_singleton|]; done.
Qed.

Lemma bind_Done {A B} (m : P Clock A) (k : A → P Clock B) w a w' :
  m w = [Done a w'] → bind m k w = k a w'.
Proof. unfold bind. intros ->. cbn. apply app_nil_r. Qed.

Lemma bind_Exited {A B} (m : P Clock A) (k : A → P Clock B) w code w' :
  m w = [Exited code w'] → bind m k w = [Exited code w'].
Proof. unfold bind. intros ->. done. Qed.

Lemma elem_of_chosen {A B} (l : list A) (k : A → P Clock B) w r :
  r ∈ bind (choose l) k w ↔ ∃ a, a ∈ l ∧ r ∈ k a w.
Proof.
  rewrite elem_of_run. unfold choose. split.
  - intros [(a & w' & Hin & Hr)|(code & w' & Hin & _)];
      apply list_elem_of_fmap in Hin as (a' & Heq & Hin); simplify_eq. eauto.
  - intros (a & Hin & Hr). left. exists a, w. split; [|done].
    apply list_elem_of_fmap. eauto.
Qed.

Lemma elem_of_permutations {A} (l l' : list A) : l' ∈ permutations l ↔ l' ≡ₚ l.
Proof. rewrite permutations_Permutation. split; intros Hl; by symmetry. Qed.

Lemma world_eta (w : world Clock) : mkWorld (out w) (err w) (clock w) = w.
Proof. by destruct w. Qed.

(** ** The table *)

Lemma acceptedOf_lastAccepted conditions :
  acceptedOf conditions = default "Unknown" (lastAccepted conditions).
Proof.
  unfold acceptedOf, lastAccepted.
  induction conditions as [|condition conditions IH] using rev_ind; [done|].
  rewrite foldl_app, filter_app, filter_cons, filter_nil. cbn [foldl].
  repeat case_decide; try done.
  - by rewrite last_snoc.
  - by rewrite app_nil_r.
Qed.

(** The body of the loop over the sorted nodes. *)
Local Abbreviation addRow :=
  (λ (gatewayClassNode : GatewayClassNode Policies) (table : Table),
     bind (readClock (Since (metav1.ObjectMeta.CreationTimestamp
                               (gatewayv1.GatewayClass.ObjectMeta
                                  (GatewayClass gatewayClassNode)))))
          (λ d, ret {| ColumnNames := ColumnNames table;
                       Rows := Rows table ++
                         [[metav1.ObjectMeta.Name
                             (gatewayv1.GatewayClass.ObjectMeta (GatewayClass gatewayClassNode));
                           gatewayv1.GatewayClassSpec.ControllerName
                             (gatewayv1.GatewayClass.Spec (GatewayClass gatewayClassNode));
                           acceptedOf (gatewayv1.GatewayClassStatus.Conditions
                                         (gatewayv1.GatewayClass.Status
                                            (GatewayClass gatewayClassNode)));
                           HumanDuration d]];
                       UseSeparator := UseSeparator table |})).

Local Abbreviation columns := ["NAME"; "CONTROLLER"; "ACCEPTED"; "AGE"].

Lemma rows_loop nodes table (w : world Clock) :
  for_range nodes addRow table w =
    [Done (mkTable (ColumnNames table) (Rows table ++ rowsOf nodes (clock w))
                   (UseSeparator table))
          (mkWorld (out w) (err w) (ages nodes (clock w)).2)].
Proof.
  unfold printing.rowsOf.
  revert table w. induction nodes as [|node nodes IH]; intros table w.
  - cbn. unfold ret. rewrite app_nil_r. by destruct table, w.
  - cbn [for_range printing.ages].
    destruct (Since (metav1.ObjectMeta.CreationTimestamp
                       (gatewayv1.GatewayClass.ObjectMeta (GatewayClass node)))
                    (clock w)) as [d c] eqn:Hsince.
    set (table' := mkTable (ColumnNames table) (Rows table ++ [rowOf node d])
                           (UseSeparator table)).
    rewrite (bind_Done _ _ _ table' (mkWorld (out w) (err w) c)).
    + rewrite IH. cbn. destruct (ages nodes c) as [ds c'].
      cbn. by rewrite <- app_assoc.
    + unfold bind, readClock, ret. rewrite Hsince. cbn.
      unfold table', printing.rowOf. by rewrite acceptedOf_lastAccepted.
Qed.

Lemma PrintTable_runs m w r :
  r ∈ PrintTable m w ↔
  ∃ nodes, nodes ≡ₚ nodesOf m ∧
    r ∈ bind (for_range (SortByString nodes) addRow (mkTable columns [] false))
             (λ table, Fprint (TableWrite table 0)) w.
Proof.
  unfold printer.PrintTable, maps_Values. cbv zeta. rewrite elem_of_chosen.
  by setoid_rewrite elem_of_permutations.
Qed.

Lemma table_written nodes (w : world Clock) :
  bind (for_range nodes addRow (mkTable columns [] false))
       (λ table, Fprint (TableWrite table 0)) w =
    [Done tt (mkWorld (out w ++ [TableWrite (mkTable columns (rowsOf nodes (clock w)) false) 0])
                      (err w) (ages nodes (clock w)).2)].
Proof. by rewrite (bind_Done _ _ _ _ _ (rows_loop nodes _ w)). Qed.

Lemma length_ages (nodes : list (GatewayClassNode Policies)) c :
  length (ages nodes c).1 = length nodes.
Proof.
  revert c. induction nodes as [|node nodes IH]; intros c; [done|].
  cbn. destruct (Since _ c) as [d c']. specialize (IH c').
  destruct (ages nodes c') as [ds c'']. cbn in *. by rewrite IH.
Qed.

Lemma rowsOf_rows (nodes : list (GatewayClassNode Policies)) c :
  Forall2 (λ node row, ∃ d, row = rowOf node d) nodes (rowsOf nodes c).
Proof.
  unfold printing.rowsOf. pose proof (length_ages nodes c) as Hlen.
  revert Hlen. generalize (ages nodes c).1. clear c.
  induction nodes as [|node nodes IH]; intros [|d ds] Hlen; try done.
  cbn. constructor; [by exists d|]. apply IH. by injection Hlen.
Qed.

(** X10. Every run of [PrintTable] returns, after it has written one table
    and nothing else: the four columns, no separator, and one row for each
    node [SortByString] gives for the nodes of the model, in that order,
    with the name of the gateway class, its controller, the status of its
    last condition of type Accepted (Unknown without one) and its age,
    the ages being read from the clock row after row. *)
Theorem PrintTable_writes_one_table (m : Model) w :
  (∃ r, r ∈ PrintTable m w) ∧
  ∀ r, r ∈ PrintTable m w →
    ∃ nodes,
      nodes ≡ₚ nodesOf m ∧
      r = Done tt (mkWorld (out w ++
                              [TableWrite (mkTable columns
                                             (rowsOf (SortByString nodes) (clock w)) false) 0])
                           (err w) (ages (SortByString nodes) (clock w)).2).
Proof.
  split.
  - eexists. apply PrintTable_runs. exists (nodesOf m). split; [done|].
    rewrite table_written. by apply list_elem_of_singleton.
  - intros r (nodes & Hnodes & Hr)%PrintTable_runs.
    rewrite table_written in Hr. apply list_elem_of_singleton in Hr.
    by exists nodes.
Qed.

(** X11. When [SortByString] only reorders its argument, the table has exactly
    one row for each gateway class of the model. *)
Theorem PrintTable_one_row_per_class (m : Model) w :
  (∀ nodes, SortByString nodes ≡ₚ nodes) →
  ∀ r, r ∈ PrintTable m w →
    ∃ nodes rows c,
      nodes ≡ₚ nodesOf m ∧
      Forall2 (λ node row, ∃ d, row = rowOf node d) nodes rows ∧
      length rows = size (GatewayClasses m) ∧
      r = Done tt (mkWorld (out w ++ [TableWrite (mkTable columns rows false) 0])
                           (err w) c).
Proof.
  intros Hsort r (nodes & Hnodes & Hr)%PrintTable_runs.
  rewrite table_written in Hr. apply list_elem_of_singleton in Hr.
  pose proof (rowsOf_rows (SortByString nodes) (clock w)) as Hrows.
  exists (SortByString nodes), (rowsOf (SortByString nodes) (clock w)),
    (ages (SortByString nodes) (clock w)).2.
  split_and!; try done.
  - by rewrite Hsort.
  - rewrite <- (Forall2_length _ _ _ Hrows), Hsort, Hnodes.
    by rewrite length_fmap, length_map_to_list.
Qed.

(** X12. When the result of [SortByString] does not depend on the order in
    which [maps.Values] lists the nodes of the model, all runs of
    [PrintTable] from one state end the same. *)
Theorem PrintTable_same_in_all_runs (m : Model) w :
  (∀ nodes, nodes ≡ₚ nodesOf m → SortByString nodes = SortByString (nodesOf m)) →
  ∀ r1 r2, r1 ∈ PrintTable m w → r2 ∈ PrintTable m w → r1 = r2.
Proof.
  intros Hsort r1 r2 (nodes1 & Hnodes1 & Hr1)%PrintTable_runs
    (nodes2 & Hnodes2 & Hr2)%PrintTable_runs.
  rewrite (Hsort _ Hnodes1) in Hr1. rewrite (Hsort _ Hnodes2) in Hr2.
  rewrite table_written in Hr1, Hr2.
  apply list_elem_of_singleton in Hr1, Hr2. congruence.
Qed.

(** ** The describe view *)

(** The body of the loop over the views of a gateway class. *)
Local Abbreviation printView :=
  (λ (view : gatewayClassDescribeView ObjRef) (_ : unit),
     match Marshal view with
     | inr err =>
         bind (Fprint_Stderr ("failed to marshal to yaml: " +:+ err +:+ newline))
              (λ _, Exit 1)
     | inl b =>
         if negb (bool_decide (TrimSpace b = "{}")) then Fprint b else ret tt
     end).

(** The body of the loop over the gateway classes of [m]. *)
Local Abbreviation printClass m :=
  (λ '((_, gatewayClassNode) : ClassID * GatewayClassNode Policies) (index : Z),
     bind (for_range (describeViews gatewayClassNode) printView tt)
          (λ _, bind (if index + 1 + 1 <=? Z.of_nat (size (GatewayClasses m))
                      then Fprint (newline +:+ newline)
                      else ret tt)
                     (λ _, ret (Clock:=Clock) (index + 1)))).

Lemma views_loop views (w : world Clock) :
  (Forall marshals views ∧
   for_range views printView tt w =
     [Done tt (mkWorld (out w ++ printed views) (err w) (clock w))]) ∨
  (∃ view e outs,
     view ∈ views ∧ Marshal view = inr e ∧
     for_range views printView tt w =
       [Exited 1 (mkWorld (out w ++ outs) (err w ++ [failure e]) (clock w))]).
Proof.
  revert w. induction views as [|view views IH]; intros w.
  { left. split; [constructor|]. cbn. unfold ret, printing.printed. cbn.
    by rewrite app_nil_r, world_eta. }
  cbn [for_range]. destruct (Marshal view) as [b|e] eqn:Hview.
  - set (written := if decide (TrimSpace b = "{}") then [] else [b]).
    set (w' := mkWorld (out w ++ written) (err w) (clock w)).
    assert (Hstep : (if negb (bool_decide (TrimSpace b = "{}"))
                     then Fprint b else ret tt) w = [Done tt w']).
    { subst w' written. case_bool_decide; case_decide; try done; cbn.
      unfold ret. by rewrite app_nil_r, world_eta. }
    rewrite (bind_Done _ _ _ _ _ Hstep).
    assert (Hprinted : printed (view :: views) = written ++ printed views).
    { unfold printing.printed, written. cbn [omap list_omap]. rewrite Hview.
      rewrite filter_cons. repeat case_decide; done. }
    destruct (IH w') as [[Hok Hrun]|(view' & e & outs & Hin & He & Hrun)].
    + left. split; [constructor; [by exists b|done]|].
      rewrite Hrun, Hprinted. cbn. by rewrite <- app_assoc.
    + right. exists view', e, (written ++ outs). split_and!; [by right|done|].
      rewrite Hrun. cbn. by rewrite <- app_assoc.
  - right. exists view, e, []. split_and!; [by left|done|].
    rewrite app_nil_r. done.
Qed.

Lemma classes_loop (m : Model) entries index (w : world Clock) :
  index + Z.of_nat (length entries) = Z.of_nat (size (GatewayClasses m)) →
  (Forall (λ node, Forall marshals (describeViews node)) entries.*2 ∧
   for_range entries (printClass m) index w =
     [Done (Z.of_nat (size (GatewayClasses m)))
           (mkWorld (out w ++ separated (block <$> entries.*2)) (err w) (clock w))]) ∨
  (∃ node view e outs,
     node ∈ entries.*2 ∧ view ∈ describeViews node ∧ Marshal view = inr e ∧
     for_range entries (printClass m) index w =
       [Exited 1 (mkWorld (out w ++ outs) (err w ++ [failure e]) (clock w))]).
Proof.
  revert index w. induction entries as [|[k node] entries IH]; intros index w Hindex.
  { left. split; [constructor|]. cbn in *. unfold ret.
    rewrite app_nil_r, world_eta. do 2 f_equal. lia. }
  cbn [for_range fmap list_fmap length snd] in *.
  destruct (views_loop (describeViews node) w)
    as [[Hok Hviews]|(view & e & outs & Hin & He & Hviews)].
  - set (w1 := mkWorld (out w ++ printed (describeViews node)) (err w) (clock w)) in *.
    destruct entries as [|entry entries].
    + left. split; [by repeat constructor|].
      assert (Hbody : printClass m (k, node) index w = [Done (index + 1) w1]).
      { cbn beta iota. rewrite (bind_Done _ _ _ _ _ Hviews).
        cbn in Hindex. case_match eqn:Hle; [apply Z.leb_le in Hle; lia|done]. }
      rewrite (bind_Done _ _ _ _ _ Hbody).
      cbn. unfold ret. do 2 f_equal. cbn in Hindex. lia.
    + set (w2 := mkWorld (out w1 ++ [newline +:+ newline]) (err w1) (clock w1)).
      assert (Hbody : printClass m (k, node) index w = [Done (index + 1) w2]).
      { cbn beta iota. rewrite (bind_Done _ _ _ _ _ Hviews).
        cbn [length] in Hindex.
        case_match eqn:Hle; [done|apply Z.leb_gt in Hle; lia]. }
      rewrite (bind_Done _ _ _ _ _ Hbody).
      destruct (IH (index + 1) w2)
        as [[Hoks Hrun]|(node' & view & e & outs & Hn & Hv & He & Hrun)].
      { cbn [length] in *. lia. }
      * left. split; [by constructor|].
        rewrite Hrun. cbn. do 3 f_equal. by rewrite <- !app_assoc.
      * right. exists node', view, e,
          (printed (describeViews node) ++ (newline +:+ newline) :: outs).
        split_and!; [by right|done|done|].
        rewrite Hrun. cbn. do 3 f_equal. by rewrite <- !app_assoc.
  - right. exists node, view, e, outs. split_and!; [by left|done|done|].
    assert (Hbody : printClass m (k, node) index w =
              [Exited 1 (mkWorld (out w ++ outs) (err w ++ [failure e]) (clock w))]).
    { cbn beta iota. by rewrite (bind_Exited _ _ _ _ _ Hviews). }
    by rewrite (bind_Exited _ _ _ _ _ Hbody).
Qed.

Lemma PrintDescribeView_runs (m : Model) w r :
  r ∈ PrintDescribeView m w ↔
  ∃ entries, entries ≡ₚ map_to_list (GatewayClasses m) ∧
    r ∈ bind (for_range entries (printClass m) 0) (λ _, ret tt) w.
Proof.
  unfold printer.PrintDescribeView, range_map. cbv zeta.
  rewrite elem_of_chosen. by setoid_rewrite elem_of_permutations.
Qed.

Lemma entries_length (m : Model) entries :
  entries ≡ₚ map_to_list (GatewayClasses m) →
  0 + Z.of_nat (length entries) = Z.of_nat (size (GatewayClasses m)).
Proof. intros ->. rewrite length_map_to_list. lia. Qed.

Lemma entries_nodes (m : Model) entries node :
  entries ≡ₚ map_to_list (GatewayClasses m) →
  node ∈ entries.*2 ↔ ∃ k, GatewayClasses m !! k = Some node.
Proof.
  intros ->. rewrite list_elem_of_fmap. split.
  - intros ([k node'] & -> & Hin%elem_of_map_to_list). by exists k.
  - intros (k & Hk). exists (k, node). split; [done|]. by apply elem_of_map_to_list.
Qed.

(** X14. When every view of every gateway class of the model marshals, the
    runs of [PrintDescribeView] are the orders in which the map can be
    ranged over: a run returns after writing, for each gateway class in
    that order, the YAML of its views that is not [{}] once trimmed, with
    two newlines between two gateway classes and none after the last; it
    writes nothing to the standard error stream. *)
Theorem PrintDescribeView_writes_separated_blocks (m : Model) w :
  (∀ k node, GatewayClasses m !! k = Some node → Forall marshals (describeViews node)) →
  ∀ r, r ∈ PrintDescribeView m w ↔
    ∃ entries, entries ≡ₚ map_to_list (GatewayClasses m) ∧
      r = Done tt (mkWorld (out w ++ separated (block <$> entries.*2)) (err w) (clock w)).
Proof.
  intros Hok r. rewrite PrintDescribeView_runs.
  assert (Hrun : ∀ entries, entries ≡ₚ map_to_list (GatewayClasses m) →
            bind (for_range entries (printClass m) 0) (λ _, ret tt) w =
              [Done tt (mkWorld (out w ++ separated (block <$> entries.*2))
                                (err w) (clock w))]).
  { intros entries Hentries.
    destruct (classes_loop m entries 0 w (entries_length m entries Hentries))
      as [[_ Hrun]|(node & view & e & outs & Hnode & Hview & He & _)].
    - by rewrite (bind_Done _ _ _ _ _ Hrun).
    - apply (entries_nodes m entries node Hentries) in Hnode as (k & Hk).
      specialize (Hok k node Hk). rewrite Forall_forall in Hok.
      destruct (Hok view Hview) as (b & Hb). congruence. }
  split; intros (entries & Hentries & Hr); exists entries; split; try done.
  - rewrite (Hrun entries Hentries) in Hr. by apply list_elem_of_singleton in Hr.
  - rewrite (Hrun entries Hentries). by apply list_elem_of_singleton.
Qed.

(** X15. [PrintDescribeView] has a run from every state, and a run ends in one
    of two ways.  It returns, with nothing written to the standard error
    stream, and then every view of every gateway class of the model
    marshals.  Or it leaves the program with code 1 after one line on the
    standard error stream, which holds the error of a view of a gateway
    class of the model; what it wrote before stays written. *)
Theorem PrintDescribeView_returns_or_exits (m : Model) w :
  (∃ r, r ∈ PrintDescribeView m w) ∧
  ∀ r, r ∈ PrintDescribeView m w →
    ((∀ k node, GatewayClasses m !! k = Some node → Forall marshals (describeViews node)) ∧
     ∃ outs, r = Done tt (mkWorld (out w ++ outs) (err w) (clock w))) ∨
    (∃ k node view e outs,
       GatewayClasses m !! k = Some node ∧ view ∈ describeViews node ∧
       Marshal view = inr e ∧
       r = Exited 1 (mkWorld (out w ++ outs) (err w ++ [failure e]) (clock w))).
Proof.
  assert (Hrun : ∀ entries, entries ≡ₚ map_to_list (GatewayClasses m) →
    ((∀ k node, GatewayClasses m !! k = Some node → Forall marshals (describeViews node)) ∧
     ∃ outs, bind (for_range entries (printClass m) 0) (λ _, ret tt) w =
               [Done tt (mkWorld (out w ++ outs) (err w) (clock w))]) ∨
    (∃ k node view e outs,
       GatewayClasses m !! k = Some node ∧ view ∈ describeViews node ∧
       Marshal view = inr e ∧
       bind (for_range entries (printClass m) 0) (λ _, ret tt) w =
         [Exited 1 (mkWorld (out w ++ outs) (err w ++ [failure e]) (clock w))])).
  { intros entries Hentries.
    destruct (classes_loop m entries 0 w (entries_length m entries Hentries))
      as [[Hoks Hrun]|(node & view & e & outs & Hnode & Hview & He & Hrun)].
    - left. split.
      + intros k node Hk. rewrite Forall_forall in Hoks. apply Hoks.
        apply (entries_nodes m entries node Hentries). by exists k.
      + eexists. by rewrite (bind_Done _ _ _ _ _ Hrun).
    - right. apply (entries_nodes m entries node Hentries) in Hnode as (k & Hk).
      exists k, node, view, e, outs. split_and!; try done.
      by rewrite (bind_Exited _ _ _ _ _ Hrun). }
  split.
  - destruct (Hrun (map_to_list (GatewayClasses m))) as
      [[_ [outs Hr]]|(k & node & view & e & outs & _ & _ & _ & Hr)]; [done| |];
      eexists; apply PrintDescribeView_runs; exists (map_to_list (GatewayClasses m));
      (split; [done|]); rewrite Hr; by apply list_elem_of_singleton.
  - intros r (entries & Hentries & Hr)%PrintDescribeView_runs.
    destruct (Hrun entries Hentries) as
      [[Hoks [outs Heq]]|(k & node & view & e & outs & Hk & Hview & He & Heq)];
      rewrite Heq in Hr; apply list_elem_of_singleton in Hr.
    + left. eauto.
    + right. exists k, node, view, e, outs. done.
Qed.

End PrintingFacts.

Import printer_examples.

Lemma PrintTable_one_row_per_class_witness :
  let r := Done tt (mkWorld [TableWrite tableOfTwoClasses 0] [] 1000) in
  (∀ nodes, SortByString nodes ≡ₚ nodes) ∧
  r ∈ PrintTable SortByString Since HumanDuration TableWrite twoClasses start ∧
  ∃ nodes rows c,
    nodes ≡ₚ (map_to_list (GatewayClasses twoClasses)).*2 ∧
    Forall2 (λ node row, ∃ d, row = rowOf HumanDuration node d) nodes rows ∧
    length rows = size (GatewayClasses twoClasses) ∧
    r = Done tt (mkWorld (out start ++
                            [TableWrite (mkTable ["NAME"; "CONTROLLER"; "ACCEPTED"; "AGE"]
                                                 rows false) 0])
                         (err start) c).
Proof.
  intros r.
  assert (∀ nodes, SortByString nodes ≡ₚ nodes) as Hsort.
  { intros nodes. apply merge_sort_Permutation. }
  assert (r ∈ PrintTable SortByString Since HumanDuration TableWrite twoClasses start) as Hrun.
  { vm_compute. left. }
  split; [exact Hsort|]. split; [exact Hrun|].
  exact (PrintTable_one_row_per_class (list string) Z SortByString Since HumanDuration
           TableWrite twoClasses start Hsort r Hrun).
Defined.

Lemma PrintTable_same_in_all_runs_witness :
  let r := Done tt (mkWorld [TableWrite tableOfTwoClasses 0] [] 1000) in
  (∀ nodes, nodes ≡ₚ (map_to_list (GatewayClasses twoClasses)).*2 →
            SortByString nodes = SortByString (map_to_list (GatewayClasses twoClasses)).*2) ∧
  ∀ r', r' ∈ PrintTable SortByString Since HumanDuration TableWrite twoClasses start → r' = r.
Proof.
  intros r.
  assert (∀ nodes, nodes ≡ₚ (map_to_list (GatewayClasses twoClasses)).*2 →
            SortByString nodes = SortByString (map_to_list (GatewayClasses twoClasses)).*2)
    as Hsort.
  { intros nodes Hnodes%elem_of_permutations. vm_compute in Hnodes.
    repeat (apply elem_of_cons in Hnodes as [->|Hnodes]); try (vm_compute; reflexivity).
    by apply elem_of_nil in Hnodes. }
  assert (r ∈ PrintTable SortByString Since HumanDuration TableWrite twoClasses start) as Hrun.
  { vm_compute. left. }
  split; [exact Hsort|]. intros r' Hrun'.
  exact (PrintTable_same_in_all_runs (list string) Z SortByString Since HumanDuration
           TableWrite twoClasses start Hsort r' r Hrun' Hrun).
Defined.

Lemma PrintDescribeView_writes_separated_blocks_witness :
  let r := Done tt (mkWorld describedBarThenFoo [] 1000) in
  (∀ k node, GatewayClasses twoClasses !! k = Some node →
             Forall (marshals Marshal)
                    (describeViews ConvertPoliciesMapToPolicyRefs ToAPIVersionAndKind node)) ∧
  r ∈ PrintDescribeView Marshal TrimSpace ConvertPoliciesMapToPolicyRefs ToAPIVersionAndKind
        twoClasses start ∧
  ∃ entries,
    entries ≡ₚ map_to_list (GatewayClasses twoClasses) ∧
    r = Done tt (mkWorld (out start ++
                            separated (block Marshal TrimSpace ConvertPoliciesMapToPolicyRefs
                                             ToAPIVersionAndKind <$> entries.*2))
                         (err start) (clock start)).
Proof.
  intros r.
  assert (∀ k node, GatewayClasses twoClasses !! k = Some node →
            Forall (marshals Marshal)
                   (describeViews ConvertPoliciesMapToPolicyRefs ToAPIVersionAndKind node))
    as Hok.
  { intros k node _. apply Forall_forall. intros view _. by eexists. }
  assert (r ∈ PrintDescribeView Marshal TrimSpace ConvertPoliciesMapToPolicyRefs
                ToAPIVersionAndKind twoClasses start) as Hrun.
  { vm_compute. right. left. }
  split; [exact Hok|]. split; [exact Hrun|].
  exact (proj1 (PrintDescribeView_writes_separated_blocks (list string) string Z Marshal
                  TrimSpace ConvertPoliciesMapToPolicyRefs ToAPIVersionAndKind
                  twoClasses start Hok r) Hrun).
Defined.

End printing_facts.
